(** * japanese-word-display: the vocabulary store, the distractor sampler
      and the quiz question builder of [src/extension.ts]

    The extension keeps one [JapaneseWordManager] whose [words] array is
    filled at start-up, and builds multiple-choice questions from it.  The
    development below embeds that code shallowly:

    - JavaScript objects and arrays live in a heap of cells addressed by
      references, so that [===] on objects is equality of references and an
      in-place [splice] is a write to one cell;
    - [Math.random()] reads the next element of a stream of fractions of
      [0,1); products and [Math.floor] are computed exactly;
    - a method is a computation in a state-and-exception monad [M]; a
      [while] loop carries an iteration budget and aborts when it is spent;
      an [await] on a promise that never settles leaves the method pending;
    - the network is what the listeners of [makeApiRequest] observe, and
      [JSON.parse] is a parameter whose result is not assumed to have the
      shape of [interface VocabularyResponse]: only the records inside a
      level array are read through [interface JapaneseWord]. *)

From stdpp Require Import gmap strings list fin_maps pretty.
From Stdlib Require Import ZArith Lia.

Open Scope string_scope.

(** ** Values *)

(** A value of TypeScript type [string] that may be [undefined] at run time
    (the first element of an empty array). *)
Inductive jsval :=
| JUndefined
| JStr (s : string).

#[global] Instance jsval_eq_dec : EqDecision jsval.
Proof. solve_decision. Defined.

(** What a template literal [`${v}`] prints. *)
Definition to_string (v : jsval) : string :=
  match v with
  | JUndefined => "undefined"
  | JStr s => s
  end.

(** A field of type [string | string[]]. *)
Inductive StrOrArr :=
| One (s : string)
| Many (l : list string).

(** [Array.isArray(x) ? x[0] : x] *)
Definition first_of (x : StrOrArr) : jsval :=
  match x with
  | One s => JStr s
  | Many l => from_option JStr JUndefined (l !! 0)
  end.

Module Example.
Record t := mk { japanese : string; chinese : string }.
End Example.

(** [interface JapaneseWord] *)
Module JapaneseWord.
Record t := mk {
  id : string;
  japanese : StrOrArr;
  reading : StrOrArr;
  kana : StrOrArr;
  chinese : StrOrArr;
  category : string;
  level : option string;
  partOfSpeech : option StrOrArr;
  examples : option (list Example.t)
}.
End JapaneseWord.

(** The three projections used by the quizzes. *)
Definition first_meaning (w : JapaneseWord.t) : jsval := first_of (JapaneseWord.chinese w).
Definition first_reading (w : JapaneseWord.t) : jsval := first_of (JapaneseWord.reading w).
Definition first_written (w : JapaneseWord.t) : jsval := first_of (JapaneseWord.japanese w).

(** ** Heap, manager and program state *)

Definition loc := nat.

(** A heap cell is a word object or an array of references to word objects. *)
Inductive cell :=
| CWord (w : JapaneseWord.t)
| CArray (elems : list loc).

(** The result of reading a variable of type [T | null], or an array slot. *)
Inductive nullable (A : Type) :=
| Null
| Undefined
| Obj (a : A).
Arguments Null {A}.
Arguments Undefined {A}.
Arguments Obj {A} a.

(** The fields of [JapaneseWordManager] that the quiz code reads or writes. *)
Record Manager := mkManager {
  words : loc;
  currentWord : nullable loc
}.

Record QuizOption := mkOption { text : jsval; isCorrect : bool }.

(** [interface QuizQuickPickItem]; [description] and [detail] are always
    empty. *)
Record QuizQuickPickItem := mkItem { label : string; answerData : QuizOption }.

(** Calls into [vscode.window]. *)
Inductive UiEvent :=
| ShowErrorMessage (msg : string)
| ShowWarningMessage (msg : string)
| ShowInformationMessage (msg : string)
| ShowQuickPick (items : list QuizQuickPickItem) (placeHolder : string).

(** A value of [Math.random()]: the fraction [num / den] of [0,1). *)
Record UnitFrac := mkFrac { num : nat; den : nat; in_unit : num < den }.

Record State := mkState {
  heap : gmap loc cell;
  wordManager : option Manager;       (* the module-level [let wordManager] *)
  random : nat -> UnitFrac;           (* the values [Math.random()] will return *)
  draws : nat;                        (* how many of them have been consumed *)
  ui : list UiEvent                   (* calls made to [vscode.window], oldest first *)
}.

Definition set_heap (h : gmap loc cell) (s : State) : State :=
  mkState h (wordManager s) (random s) (draws s) (ui s).
Definition set_wordManager (m : option Manager) (s : State) : State :=
  mkState (heap s) m (random s) (draws s) (ui s).
Definition set_draws (n : nat) (s : State) : State :=
  mkState (heap s) (wordManager s) (random s) n (ui s).
Definition set_ui (u : list UiEvent) (s : State) : State :=
  mkState (heap s) (wordManager s) (random s) (draws s) u.

(** ** The monad *)

Inductive Exn :=
| TypeError                        (* a property read on [undefined] or [null], a call of a non-function *)
| SyntaxError                      (* [JSON.parse] *)
| Rejected (why : string)          (* [makeApiRequest] rejected its promise *)
| Error (msg : string).            (* [throw new Error(msg)] *)

(** Why a run of the model stops without a JavaScript result. *)
Inductive abort :=
| OutOfFuel          (* the iteration budget of a [while] loop is spent *)
| BadReference       (* a reference that is not in the heap, or of the wrong kind *)
| OutOfRange.        (* an array write outside the array *)

(** A computation returns, throws, or stays suspended for ever at an
    [await] whose promise never settles ([Pending], with the state it has
    reached: the rest of the session goes on from there). *)
Inductive outcome (A : Type) :=
| Ret (a : A) (s : State)
| Throw (e : Exn) (s : State)
| Pending (s : State)
| Abort (why : abort).
Arguments Ret {A} a s.
Arguments Throw {A} e s.
Arguments Pending {A} s.
Arguments Abort {A} why.

Definition M (A : Type) : Type := State -> outcome A.

Definition ret {A} (a : A) : M A := fun s => Ret a s.

Definition bind {A B} (m : M A) (k : A -> M B) : M B :=
  fun s =>
    match m s with
    | Ret a s' => k a s'
    | Throw e s' => Throw e s'
    | Pending s' => Pending s'
    | Abort why => Abort why
    end.

Notation "x <- m ;; k" := (bind m (fun x => k))
  (at level 100, m at next level, right associativity).
Notation "m ;;; k" := (bind m (fun _ => k))
  (at level 100, right associativity).

Definition throw {A} (e : Exn) : M A := fun s => Throw e s.
(** [await] on a promise that neither resolves nor rejects. *)
Definition never_settles {A} : M A := fun s => Pending s.
Definition stop {A} (why : abort) : M A := fun _ => Abort why.

(** [try { body } catch (error) { handler }] *)
Definition try_catch {A} (body : M A) (handler : Exn -> M A) : M A :=
  fun s =>
    match body s with
    | Ret a s' => Ret a s'
    | Throw e s' => handler e s'
    | Pending s' => Pending s'
    | Abort why => Abort why
    end.

Definition get_state : M State := fun s => Ret s s.

(** *** Primitive operations *)

(** [Math.floor(r * n)] *)
Definition floor_mul (r : UnitFrac) (n : nat) : nat := (num r * n) / den r.

Definition Math_random : M UnitFrac :=
  fun s => Ret (random s (draws s)) (set_draws (S (draws s)) s).

(** [Math.floor(Math.random() * n)] *)
Definition random_index (n : nat) : M nat :=
  r <- Math_random ;; ret (floor_mul r n).

(** Allocation of a fresh object or array. *)
Definition alloc (c : cell) : M loc :=
  fun s => let l := fresh (dom (heap s)) in Ret l (set_heap (<[l:=c]> (heap s)) s).

(** The elements of the array at [a]. *)
Definition array_get (a : loc) : M (list loc) :=
  fun s =>
    match heap s !! a with
    | Some (CArray es) => Ret es s
    | _ => Abort BadReference
    end.

(** In-place replacement of the elements of the array at [a]. *)
Definition array_set (a : loc) (es : list loc) : M unit :=
  fun s =>
    match heap s !! a with
    | Some (CArray _) => Ret tt (set_heap (<[a:=CArray es]> (heap s)) s)
    | _ => Abort BadReference
    end.

(** The word object at [r]. *)
Definition deref (r : loc) : M JapaneseWord.t :=
  fun s =>
    match heap s !! r with
    | Some (CWord w) => Ret w s
    | _ => Abort BadReference
    end.

Definition show (e : UiEvent) : M unit :=
  fun s => Ret tt (set_ui (ui s ++ [e]) s).

(** *** Array operations *)

(** [arr[k]] *)
Definition index {A} (arr : list A) (k : nat) : nullable A :=
  match arr !! k with
  | Some a => Obj a
  | None => Undefined
  end.

(** [arr.includes(v)] *)
Definition includes (arr : list jsval) (v : jsval) : bool :=
  bool_decide (v ∈ arr).

(** [arr.indexOf(x)]: the first index holding [x], or [-1]. *)
Fixpoint indexOf (arr : list loc) (x : loc) : Z :=
  match arr with
  | [] => -1
  | y :: arr' =>
      if decide (y = x) then 0
      else let i := indexOf arr' x in if (i <? 0)%Z then -1 else (i + 1)%Z
  end.

(** The array left by [arr.splice(start, deleteCount)]: a negative [start]
    counts from the end. *)
Definition splice {A} (start : Z) (deleteCount : nat) (arr : list A) : list A :=
  let len := Z.of_nat (length arr) in
  let from := Z.to_nat (if (start <? 0)%Z then Z.max (len + start) 0 else Z.min start len) in
  take from arr ++ drop (from + Nat.min deleteCount (length arr - from)) arr.

(** [arr.push(v)] *)
Definition push {A} (arr : list A) (v : A) : list A := arr ++ [v].

(** [arr.filter(word => p(word))]: a fresh array of the elements whose
    object satisfies [p]. *)
Fixpoint filter_refs (p : JapaneseWord.t -> bool) (es : list loc) : M (list loc) :=
  match es with
  | [] => ret []
  | r :: es' =>
      w <- deref r ;;
      rest <- filter_refs p es' ;;
      ret (if p w then r :: rest else rest)
  end.

Definition array_filter (p : JapaneseWord.t -> bool) (a : loc) : M loc :=
  es <- array_get a ;;
  kept <- filter_refs p es ;;
  alloc (CArray kept).

(** ** class JapaneseWordManager *)

(** The messages shown to the user. *)
Definition fallback_message : string := "無法載入日文單字數據，使用備用單字".
Definition not_loaded_message : string := "請先載入日文單字數據".
Definition no_examples_message : string := "目前沒有可用的例句".
Definition example_error_message : string := "例句練習功能發生錯誤，請稍後再試".

(** [this.words] inside a method called as [wordManager.method()]. *)
Definition this_words : M loc :=
  fun s =>
    match wordManager s with
    | Some this => Ret (words this) s
    | None => Throw TypeError s
    end.

(** [this.words = a] *)
Definition set_this_words (a : loc) : M unit :=
  fun s =>
    match wordManager s with
    | Some this => Ret tt (set_wordManager (Some (mkManager a (currentWord this))) s)
    | None => Throw TypeError s
    end.

(** [wordManager = new JapaneseWordManager()]: [words = []] and
    [currentWord = null]. *)
Definition new_JapaneseWordManager : M unit :=
  a <- alloc (CArray []) ;;
  fun s => Ret tt (set_wordManager (Some (mkManager a Null)) s).

Definition mkWord (id japanese reading kana : string) (chinese : list string)
    (category level : string) : JapaneseWord.t :=
  JapaneseWord.mk id (One japanese) (One reading) (One kana) (Many chinese)
    category (Some level) None None.

Definition defaultWords : list JapaneseWord.t :=
  [ mkWord "1" "学校" "がっこう" "がっこう" ["學校"] "名詞" "N5";
    mkWord "2" "勉強" "べんきょう" "べんきょう" ["學習"; "念書"] "名詞" "N4";
    mkWord "3" "先生" "せんせい" "せんせい" ["老師"] "名詞" "N5" ].

(** Allocation of one object per element of an array literal. *)
Fixpoint alloc_words (ws : list JapaneseWord.t) : M (list loc) :=
  match ws with
  | [] => ret []
  | w :: ws' => r <- alloc (CWord w) ;; rs <- alloc_words ws' ;; ret (r :: rs)
  end.

Definition loadDefaultWords : M unit :=
  rs <- alloc_words defaultWords ;;
  a <- alloc (CArray rs) ;;
  set_this_words a.

(** What the network does with the one request of [makeApiRequest], as the
    listeners of the promise see it.

    [chunks] holds, for each ['data'] event, the text that [data += chunk]
    appends: the chunk is a [Buffer] and is converted to a string on its
    own, so these are the texts of the chunks decoded one by one (a
    character whose bytes are split between two chunks has already become
    replacement characters here), not a decoding of the joined bytes.

    [ResponseCut]: the status line and the headers arrive, the callback of
    [get] registers its two listeners, some chunks may arrive, and then the
    connection is closed before the body is complete.  The response emits
    neither ['end'] nor anything else the code listens to, the request emits
    no ['error'] once the response has started, and the idle timer of
    [setTimeout] is gone with the socket. *)
Inductive Transport :=
| RequestError (why : string)                          (* ['error'] on [req] *)
| RequestTimeout                                       (* the socket stays idle for 5000 ms *)
| Response (statusCode : Z) (chunks : list string)     (* ['data'] events, then ['end'] *)
| ResponseCut (statusCode : Z) (chunks : list string). (* ['data'] events, no ['end'] *)

(** The request settles: its promise is resolved or rejected. *)
Definition settles (net : Transport) : bool :=
  match net with
  | ResponseCut _ _ => false
  | _ => true
  end.

(** [let data = ''; ... data += chunk] over the ['data'] events. *)
Definition concat_chunks (chunks : list string) : string :=
  foldl (fun data chunk => data ++ chunk) "" chunks.

Definition makeApiRequest (net : Transport) : M string :=
  match net with
  | RequestError why => throw (Rejected why)
  | RequestTimeout => throw (Rejected "API 請求超時")
  | Response statusCode chunks =>
      if (statusCode =? 200)%Z then ret (concat_chunks chunks)
      else throw (Rejected ("API 請求失敗: " ++ pretty statusCode))
  | ResponseCut _ _ => never_settles
  end.

(** [interface VocabularyResponse]: what the service promises to send.
    [data] lists the entries of the object in the order of
    [Object.entries]. *)
Record VocabularyResponse := mkResponse {
  success : bool;
  data : list (string * list JapaneseWord.t)
}.

(** What [JSON.parse] returns is not checked against that interface ([as
    VocabularyResponse] is erased at run time), so the value is described
    here by what the code does with it.

    The value found under one key of [response.data]: an array, whose
    elements are read through [interface JapaneseWord] (the spread
    [{ ...word, level }] accepts any element and checks nothing), or
    anything else, on which [levelWords.forEach] is not a function. *)
Inductive LevelValue :=
| NotAnArray
| Words (levelWords : list JapaneseWord.t).

(** [response.data]: [undefined] or [null], which [Object.entries] refuses,
    or a value with its entries in the order [Object.entries] lists them
    (keys that are array indices first, in ascending order, then the other
    keys in the order of the text; no entry for a number or a boolean). *)
Inductive DataValue :=
| NoData
| Entries (entries : list (string * LevelValue)).

(** The parsed body: [null], on which reading [.success] throws, or any
    other value, with the truthiness of its [success] and its [data]. *)
Inductive Parsed :=
| ParsedNull
| ParsedValue (success : bool) (data : DataValue).

(** A body that conforms to [interface VocabularyResponse]. *)
Definition conforming (response : VocabularyResponse) : Parsed :=
  ParsedValue (success response)
    (Entries ((fun '(level, levelWords) => (level, Words levelWords)) <$> data response)).

(** [{ ...word, level: level }] *)
Definition with_level (word : JapaneseWord.t) (level : string) : JapaneseWord.t :=
  JapaneseWord.mk (JapaneseWord.id word) (JapaneseWord.japanese word)
    (JapaneseWord.reading word) (JapaneseWord.kana word) (JapaneseWord.chinese word)
    (JapaneseWord.category word) (Some level) (JapaneseWord.partOfSpeech word)
    (JapaneseWord.examples word).

(** [this.words.push(wordWithLevel)] *)
Definition push_word (r : loc) : M unit :=
  a <- this_words ;;
  es <- array_get a ;;
  array_set a (push es r).

(** [xs.forEach(x => body(x))] *)
Fixpoint forEach {A} (xs : list A) (body : A -> M unit) : M unit :=
  match xs with
  | [] => ret tt
  | x :: xs' => body x ;;; forEach xs' body
  end.

(** [response.success] *)
Definition get_success (response : Parsed) : M bool :=
  match response with
  | ParsedNull => throw TypeError
  | ParsedValue success _ => ret success
  end.

(** [Object.entries(response.data)], reached only when [response] is not
    [null]. *)
Definition Object_entries_data (response : Parsed) : M (list (string * LevelValue)) :=
  match response with
  | ParsedNull => throw TypeError
  | ParsedValue _ NoData => throw TypeError
  | ParsedValue _ (Entries entries) => ret entries
  end.

(** [levelWords.forEach(word => body(word))] on a value that may not be an
    array. *)
Definition forEach_level (levelWords : LevelValue) (body : JapaneseWord.t -> M unit) : M unit :=
  match levelWords with
  | NotAnArray => throw TypeError
  | Words levelWords => forEach levelWords body
  end.

Section Load.
(** [JSON.parse(data)]; [None] is a [SyntaxError]. *)
Variable JSON_parse : string -> option Parsed.

(** The [try] block of [loadVocabularyData]. *)
Definition loadVocabularyData_try (net : Transport) : M unit :=
  body <- makeApiRequest net ;;
  match JSON_parse body with
  | None => throw SyntaxError
  | Some response =>
      success <- get_success response ;;
      if success then
        a <- alloc (CArray []) ;;
        set_this_words a ;;;
        entries <- Object_entries_data response ;;
        forEach entries (fun '(level, levelWords) =>
          forEach_level levelWords (fun word =>
            wordWithLevel <- alloc (CWord (with_level word level)) ;;
            push_word wordWithLevel))
      else throw (Error "API 回應失敗")
  end.

Definition loadVocabularyData (net : Transport) : M unit :=
  try_catch (loadVocabularyData_try net)
    (fun _ =>
       show (ShowErrorMessage fallback_message) ;;;
       loadDefaultWords).
End Load.

(** [this.words.length] *)
Definition getWordsCount : M nat :=
  a <- this_words ;;
  es <- array_get a ;;
  ret (length es).

Definition getRandomWord : M (nullable loc) :=
  a <- this_words ;;
  es <- array_get a ;;
  if (length es =? 0)%nat then ret Null
  else
    k <- random_index (length es) ;;
    ret (index es k).

Definition getRandomWordForQuiz : M (nullable loc) := getRandomWord.

(** One iteration of the [while] loop of [getRandomMeanings],
    [getRandomReadings] and [getRandomWords], which differ only in the
    field [proj] they read.  Reading a field of an [undefined] [randomWord]
    is a [TypeError]. *)
Definition sample_body (proj : JapaneseWord.t -> jsval) (otherWords : loc)
    (meanings : list jsval) : M (list jsval) :=
  ow <- array_get otherWords ;;
  k <- random_index (length ow) ;;
  match index ow k with
  | Obj randomWord =>
      w <- deref randomWord ;;
      let meaning := proj w in
      let meanings := if includes meanings meaning then meanings else push meanings meaning in
      let index := indexOf ow randomWord in
      array_set otherWords (splice index 1 ow) ;;;
      ret meanings
  | _ => throw TypeError
  end.

(** [while (meanings.length < count && otherWords.length > 0) { ... }] *)
Fixpoint sample_loop (fuel : nat) (proj : JapaneseWord.t -> jsval) (count : Z)
    (otherWords : loc) (meanings : list jsval) : M (list jsval) :=
  ow <- array_get otherWords ;;
  if (Z.of_nat (length meanings) <? count)%Z && (0 <? length ow)%nat then
    match fuel with
    | 0 => stop OutOfFuel
    | S fuel' =>
        meanings' <- sample_body proj otherWords meanings ;;
        sample_loop fuel' proj count otherWords meanings'
    end
  else ret meanings.

Definition sample (fuel : nat) (proj : JapaneseWord.t -> jsval)
    (excludeId : string) (count : Z) : M (list jsval) :=
  a <- this_words ;;
  otherWords <- array_filter (fun word => bool_decide (JapaneseWord.id word ≠ excludeId)) a ;;
  sample_loop fuel proj count otherWords [].

Definition getRandomMeanings (fuel : nat) (excludeId : string) (count : Z) : M (list jsval) :=
  sample fuel first_meaning excludeId count.

Definition getRandomReadings (fuel : nat) (excludeId : string) (count : Z) : M (list jsval) :=
  sample fuel first_reading excludeId count.

Definition getRandomWords (fuel : nat) (excludeId : string) (count : Z) : M (list jsval) :=
  sample fuel first_written excludeId count.

(** ** Quiz questions *)

(** [[options[i], options[j]] = [options[j], options[i]]]; [None] when an
    index is outside the array. *)
Definition swap {A} (i j : nat) (options : list A) : option (list A) :=
  match options !! i, options !! j with
  | Some oi, Some oj => Some (<[j:=oi]> (<[i:=oj]> options))
  | _, _ => None
  end.

(** The body of [for (let i = ...; i > 0; i--)], from the current [i] on. *)
Fixpoint shuffle_from {A} (i : nat) (options : list A) : M (list A) :=
  match i with
  | 0 => ret options
  | S i' =>
      j <- random_index (i + 1) ;;
      match swap i j options with
      | Some options' => shuffle_from i' options'
      | None => stop OutOfRange
      end
  end.

(** The shuffle of [generateQuizQuestion] and of [showExampleQuiz]:
    [for (let i = options.length - 1; i > 0; i--) { ... }] *)
Definition shuffle {A} (options : list A) : M (list A) :=
  shuffle_from (length options - 1) options.

Definition make_options (correctAnswer : jsval) (wrongAnswers : list jsval) : list QuizOption :=
  mkOption correctAnswer true :: map (fun answer => mkOption answer false) wrongAnswers.

Module QuizQuestion.
Record t := mk {
  questionText : string;
  options : list QuizOption;
  correctAnswer : jsval;
  targetWord : loc
}.
End QuizQuestion.

Definition questionTypes : list string := ["meaning"; "reading"; "word"].

(** The [switch (questionType)] of [generateQuizQuestion]: the values of
    [questionText], [correctAnswer] and [wrongAnswers] after it. *)
Definition quiz_switch (fuel : nat) (questionType : option string) (targetWord : loc)
    : M (string * jsval * list jsval) :=
  if decide (questionType = Some "meaning") then
    tw <- deref targetWord ;;
    let japanese := first_written tw in
    let questionText := "請選擇「" ++ to_string japanese ++ "」的正確意思：" in
    let correctAnswer := first_meaning tw in
    wrongAnswers <- getRandomMeanings fuel (JapaneseWord.id tw) 3 ;;
    ret (questionText, correctAnswer, wrongAnswers)
  else if decide (questionType = Some "reading") then
    tw <- deref targetWord ;;
    let japanese2 := first_written tw in
    let questionText := "請選擇「" ++ to_string japanese2 ++ "」的正確讀音：" in
    let correctAnswer := first_reading tw in
    wrongAnswers <- getRandomReadings fuel (JapaneseWord.id tw) 3 ;;
    ret (questionText, correctAnswer, wrongAnswers)
  else if decide (questionType = Some "word") then
    tw <- deref targetWord ;;
    let meaning := first_meaning tw in
    let questionText := "哪個漢字的意思是「" ++ to_string meaning ++ "」？" in
    let japanese3 := first_written tw in
    let correctAnswer := japanese3 in
    wrongAnswers <- getRandomWords fuel (JapaneseWord.id tw) 3 ;;
    ret (questionText, correctAnswer, wrongAnswers)
  else ret ("", JStr "", []).

(** [generateQuizQuestion()]; [None] is [null]. *)
Definition generateQuizQuestion (fuel : nat) : M (option QuizQuestion.t) :=
  s <- get_state ;;
  match wordManager s with
  | None => ret None
  | Some _ =>
      n <- getWordsCount ;;
      if (n =? 0)%nat then ret None
      else
        targetWord <- getRandomWordForQuiz ;;
        match targetWord with
        | Obj targetWord =>
            k <- random_index (length questionTypes) ;;
            let questionType := questionTypes !! k in
            locals <- quiz_switch fuel questionType targetWord ;;
            let '(questionText, correctAnswer, wrongAnswers) := locals in
            let options := make_options correctAnswer wrongAnswers in
            options <- shuffle options ;;
            ret (Some (QuizQuestion.mk questionText options correctAnswer targetWord))
        | _ => ret None
        end
  end.

(** [word.examples && word.examples.length > 0] *)
Definition has_examples (word : JapaneseWord.t) : bool :=
  match JapaneseWord.examples word with
  | Some exs => (0 <? length exs)%nat
  | None => false
  end.

(** [getWordsWithExamples()]: a fresh array. *)
Definition getWordsWithExamples : M loc :=
  s <- get_state ;;
  match wordManager s with
  | None => alloc (CArray [])
  | Some this => array_filter has_examples (words this)
  end.

Module ExampleQuiz.
Record t := mk {
  targetWord : loc;
  randomExample : Example.t;
  correctAnswer : jsval;
  options : list QuizOption;
  questionText : string
}.
End ExampleQuiz.

Definition example_prompt (japanese : jsval) (ex : Example.t) : string :=
  "以下例句中的「" ++ to_string japanese ++ "」是什麼意思？

例句：" ++ Example.japanese ex ++ "
" ++ Example.chinese ex.

(** [showExampleQuiz()] up to the call of [showQuickPick]: the values of its
    locals there, or [None] when it has returned after a message. *)
Definition exampleQuizQuestion (fuel : nat) : M (option ExampleQuiz.t) :=
  s <- get_state ;;
  unloaded <- match wordManager s with
              | None => ret true
              | Some _ => n <- getWordsCount ;; ret (n =? 0)%nat
              end ;;
  if (unloaded : bool) then
    show (ShowWarningMessage not_loaded_message) ;;; ret None
  else
    wordsWithExamples <- getWordsWithExamples ;;
    wwe <- array_get wordsWithExamples ;;
    if (length wwe =? 0)%nat then
      show (ShowInformationMessage no_examples_message) ;;; ret None
    else
      k <- random_index (length wwe) ;;
      match index wwe k with
      | Obj targetWord =>
          tw <- deref targetWord ;;
          r <- Math_random ;;
          match JapaneseWord.examples tw with
          | None => throw TypeError
          | Some exs =>
              let randomExample := index exs (floor_mul r (length exs)) in
              let correctAnswer := first_meaning tw in
              wrongAnswers <- getRandomMeanings fuel (JapaneseWord.id tw) 3 ;;
              let options := make_options correctAnswer wrongAnswers in
              options <- shuffle options ;;
              match randomExample with
              | Obj ex =>
                  let questionText := example_prompt (first_written tw) ex in
                  ret (Some (ExampleQuiz.mk targetWord ex correctAnswer options questionText))
              | _ => throw TypeError
              end
          end
      | _ => throw TypeError
      end.

(** [options.map((option, index) => ({ label: `${index + 1}. ${option.text}`, ... }))] *)
Definition quick_pick_items (options : list QuizOption) : list QuizQuickPickItem :=
  imap (fun index option => mkItem (pretty (index + 1)%nat ++ ". " ++ to_string (text option)) option)
       options.

(** [showExampleQuiz()]; [choice] is the position of the item the user picks
    in the quick pick, [None] when the user dismisses it. *)
Definition showExampleQuiz (fuel : nat) (choice : option nat) : M unit :=
  try_catch
    (q <- exampleQuizQuestion fuel ;;
     match q with
     | None => ret tt
     | Some q =>
         let items := quick_pick_items (ExampleQuiz.options q) in
         show (ShowQuickPick items (ExampleQuiz.questionText q)) ;;;
         match choice ≫= (items !!.) with
         | Some selectedAnswer =>
             if isCorrect (answerData selectedAnswer) then
               show (ShowInformationMessage "🎉 答對了！例句理解正確！")
             else
               show (ShowWarningMessage
                       ("❌ 答錯了！正確答案是：" ++ to_string (ExampleQuiz.correctAnswer q)))
         | None => ret tt
         end
     end)
    (fun _ => show (ShowErrorMessage example_error_message)).

(** ** The store as the claims see it *)

(** The word object a reference points to. *)
Definition word_at (h : gmap loc cell) (r : loc) : option JapaneseWord.t :=
  match h !! r with
  | Some (CWord w) => Some w
  | _ => None
  end.

(** The Words of the collection, in the order of [this.words]. *)
Definition store (s : State) : option (list JapaneseWord.t) :=
  this ← wordManager s;
  match heap s !! words this with
  | Some (CArray rs) => mapM (word_at (heap s)) rs
  | _ => None
  end.

(** The candidate pool of the sampler: the Words whose id differs from
    [excludeId]. *)
Definition candidates (excludeId : string) (ws : list JapaneseWord.t) : list JapaneseWord.t :=
  filter (fun word => JapaneseWord.id word ≠ excludeId) ws.

(** [s'] differs from [s] only in the heap and in the number of random
    values consumed. *)
Definition same_session (s s' : State) : Prop :=
  wordManager s' = wordManager s ∧ random s' = random s ∧ ui s' = ui s.

(** Every cell of [s] is still there, unchanged, in [s']. *)
Definition preserves_heap (s s' : State) : Prop :=
  ∀ l c, heap s !! l = Some c → heap s' !! l = Some c.

(** The state in which the extension starts: nothing allocated, no manager. *)
Definition initial_state (rnd : nat -> UnitFrac) : State := mkState ∅ None rnd 0 [].

(** The fraction [a / (a + b + 1)]. *)
Definition frac (a b : nat) : UnitFrac := mkFrac a (a + b + 1) ltac:(lia).

(** ** Fisher–Yates, following the specification's words *)

(** "Swap element i with element at index j". *)
Definition exchange {A} (i j : nat) (l : list A) : list A :=
  match l !! i, l !! j with
  | Some a, Some b => <[i:=b]> (<[j:=a]> l)
  | _, _ => l
  end.

(** "For index i from last down to 1, swap element i with element at
    random index in [0, i]": [pick i] is the index drawn for position [i]. *)
Definition fisher_yates (A : Type) (pick : nat -> nat) (l : list A) : list A :=
  foldl (fun acc i => exchange i (pick i) acc) l (reverse (seq 1 (length l - 1))).

(** The index the code draws for position [i] when it shuffles, from state
    [s], an array whose last index is [last]: positions are visited from
    [last] down, one random value each. *)
Definition drawn_index (s : State) (last i : nat) : nat :=
  floor_mul (random s (draws s + (last - i))) (i + 1).

(** ** The sampler by projection *)

(** The three projections of the specification's [sample(projection,
    excludeId, count)] and the method that implements each. *)
Inductive Projection := Meaning | Reading | WrittenForm.

Definition project (p : Projection) : JapaneseWord.t -> jsval :=
  match p with
  | Meaning => first_meaning
  | Reading => first_reading
  | WrittenForm => first_written
  end.

Definition sampler (p : Projection) : nat -> string -> Z -> M (list jsval) :=
  match p with
  | Meaning => getRandomMeanings
  | Reading => getRandomReadings
  | WrittenForm => getRandomWords
  end.

(** ** Well-formed words and the outcome of a load *)

Definition nonempty (x : StrOrArr) : bool :=
  match x with
  | One _ => true
  | Many l => (0 <? length l)%nat
  end.

(** The invariant of the data model: written forms, readings and meanings
    are not empty. *)
Definition well_formed (w : JapaneseWord.t) : bool :=
  nonempty (JapaneseWord.japanese w) && nonempty (JapaneseWord.reading w)
  && nonempty (JapaneseWord.chinese w).

(** Every value under a key of [data] is an array. *)
Definition is_words (levelWords : LevelValue) : bool :=
  match levelWords with
  | NotAnArray => false
  | Words _ => true
  end.

Definition well_shaped (data : DataValue) : bool :=
  match data with
  | NoData => false
  | Entries entries => forallb (fun entry => is_words entry.2) entries
  end.

(** The ways a load fails by an exception: a network error, a timeout or a
    status other than 200 (the request is rejected), a body that does not
    parse, a body that is [null], a [success] that is not truthy, a [data]
    that is missing or holds something that is not an array.  A response
    that is cut is not among them: nothing is thrown. *)
Definition load_fails (JSON_parse : string -> option Parsed) (net : Transport) : bool :=
  match net with
  | RequestError _ => true
  | RequestTimeout => true
  | Response statusCode chunks =>
      if (statusCode =? 200)%Z then
        match JSON_parse (concat_chunks chunks) with
        | None => true
        | Some ParsedNull => true
        | Some (ParsedValue success data) => negb (success && well_shaped data)
        end
      else true
  | ResponseCut _ _ => false
  end.

(** The Words of one entry, with the key of the entry as their level. *)
Definition level_words (entry : string * LevelValue) : list JapaneseWord.t :=
  match entry.2 with
  | NotAnArray => []
  | Words levelWords => (fun word => with_level word entry.1) <$> levelWords
  end.

(** The Words a load stores from the entries of [data], in the order of the
    entries. *)
Definition loaded_words (entries : list (string * LevelValue)) : list JapaneseWord.t :=
  entry ← entries; level_words entry.

(** ** Relations between states used in the proofs *)

(** The references [rs] point to the word objects [ws], in order. *)
Definition pointed (h : gmap loc cell) (rs : list loc) (ws : list JapaneseWord.t) : Prop :=
  Forall2 (fun r w => h !! r = Some (CWord w)) rs ws.

(** [s'] differs from [s] only in the heap. *)
Definition same_but_heap (s s' : State) : Prop :=
  wordManager s' = wordManager s ∧ random s' = random s ∧ ui s' = ui s ∧ draws s' = draws s.

(** ** Concrete sessions *)

(** The state a computation leaves behind. *)
Definition state_after {A} (m : M A) (s : State) : State :=
  match m s with
  | Ret _ s' => s'
  | Throw _ s' => s'
  | Pending s' => s'
  | Abort _ => s
  end.

(** The value a computation returns, if it returns. *)
Definition result_of {A} (o : outcome A) : option A :=
  match o with
  | Ret a _ => Some a
  | _ => None
  end.

(** The session after activation, before any load: an empty collection. *)
Definition empty_state : State :=
  state_after new_JapaneseWordManager (initial_state (fun n => frac n 6)).

(** The session after a load that fell back to the default words. *)
Definition fallback_state : State :=
  state_after loadDefaultWords empty_state.

(** Two Words with different ids and the same first meaning. *)
Definition twin1 : JapaneseWord.t :=
  mkWord "1" "先生" "せんせい" "せんせい" ["老師"] "名詞" "N5".
Definition twin2 : JapaneseWord.t :=
  mkWord "2" "教師" "きょうし" "きょうし" ["老師"] "名詞" "N5".

(** A service that answers with those two Words at level N5. *)
Definition twin_response (_ : string) : option Parsed :=
  Some (conforming (mkResponse true [("N5", [twin1; twin2])])).

Definition twin_state : State :=
  state_after (loadVocabularyData twin_response (Response 200 ["{}"])) empty_state.

(** A Word with one example sentence. *)
Definition example_word : JapaneseWord.t :=
  JapaneseWord.mk "7" (One "学校") (One "がっこう") (One "がっこう") (Many ["學校"])
    "名詞" (Some "N5") None (Some [Example.mk "学校に行きます。" "去學校。"]).

Definition example_response (_ : string) : option Parsed :=
  Some (conforming (mkResponse true [("N5", [example_word])])).

Definition example_state : State :=
  state_after (loadVocabularyData example_response (Response 200 ["{}"])) empty_state.

(** A service that answers with a payload whose [success] is false. *)
Definition refused_response (_ : string) : option Parsed :=
  Some (conforming (mkResponse false [])).

(** A service that answers with a successful payload without any Word. *)
Definition blank_response (_ : string) : option Parsed :=
  Some (conforming (mkResponse true [])).

(** A service whose payload has a truthy [success] and no [data]. *)
Definition dataless_response (_ : string) : option Parsed :=
  Some (ParsedValue true NoData).

(** A service whose payload holds an array under [N5] and something that is
    not an array under [N4]. *)
Definition ill_shaped_response (_ : string) : option Parsed :=
  Some (ParsedValue true (Entries [("N5", Words [twin1]); ("N4", NotAnArray)])).

(** A response whose headers and first bytes arrive, and whose connection
    is then closed. *)
Definition cut_response : Transport := ResponseCut 200 ["{"].

(** An option list of three. *)
Definition three_options : list QuizOption :=
  make_options (JStr "學校") [JStr "老師"; JStr "學習"].

(** [d * n] equally spaced values of [Math.random()]: [a / (d * n)] for
    [a = 0 .. d * n - 1]. *)
Definition grid (d n : nat) : list UnitFrac :=
  (fun a => frac a (d * n - 1 - a)) <$> seq 0 (d * n).

(** ** The status bar, the quiz command and activation *)

(** A line break inside a template literal. *)
Definition nl : string := String (Ascii.ascii_of_nat 10) "".

(** [Array.isArray(x) ? x.join(sep) : x] *)
Definition joined (sep : string) (x : StrOrArr) : string :=
  match x with
  | One s => s
  | Many l => String.concat sep l
  end.

(** Truthiness of a string, and of a [string | string[]] (an array is
    always truthy). *)
Definition truthy (s : string) : bool := negb (String.eqb s "").

Definition truthy_field (x : StrOrArr) : bool :=
  match x with
  | One s => truthy s
  | Many _ => true
  end.

(** [this.currentWord] and [this.currentWord = r] in a method. *)
Definition getCurrentWord : M (nullable loc) :=
  fun s =>
    match wordManager s with
    | Some this => Ret (currentWord this) s
    | None => Throw TypeError s
    end.

Definition set_currentWord (r : nullable loc) : M unit :=
  fun s =>
    match wordManager s with
    | Some this => Ret tt (set_wordManager (Some (mkManager (words this) r)) s)
    | None => Throw TypeError s
    end.

(** What [updateStatusBar] writes to [this.statusBarItem]. *)
Module StatusBarItem.
Record t := mk { text : string; tooltip : string }.
End StatusBarItem.

(** The lines of the hover tooltip for the first two examples:
    [examples.slice(0, 2).forEach((example, index) => ...)]. *)
Definition example_lines (exs : list Example.t) : string :=
  String.concat ""
    (imap (fun index example =>
             pretty (index + 1)%nat ++ ". " ++ Example.japanese example ++ nl
             ++ "   *" ++ Example.chinese example ++ "*" ++ nl ++ nl)
          (take 2 exs)).

(** The markdown accumulated in [hoverTooltip] by [updateStatusBar]. *)
Definition hover_tooltip (w : JapaneseWord.t) : string :=
  let reading := joined "／" (JapaneseWord.reading w) in
  let japanese := joined "／" (JapaneseWord.japanese w) in
  let chinese := joined ", " (JapaneseWord.chinese w) in
  let kana := joined ", " (JapaneseWord.kana w) in
  "## 📖 " ++ japanese ++ nl ++ nl
  ++ "**假名：** " ++ kana ++ nl ++ nl
  ++ "**讀音：** " ++ reading ++ nl ++ nl
  ++ "**中文：** " ++ chinese ++ nl ++ nl
  ++ (if truthy (JapaneseWord.category w)
      then "**類別：** " ++ JapaneseWord.category w ++ nl ++ nl else "")
  ++ match JapaneseWord.partOfSpeech w with
     | Some partOfSpeech =>
         if truthy_field partOfSpeech
         then "**詞性：** " ++ joined ", " partOfSpeech ++ nl ++ nl else ""
     | None => ""
     end
  ++ match JapaneseWord.level w with
     | Some level => if truthy level then "**等級：** " ++ level ++ nl ++ nl else ""
     | None => ""
     end
  ++ (if has_examples w
      then "**例句：**" ++ nl ++ nl
           ++ example_lines (default [] (JapaneseWord.examples w))
      else "")
  ++ "---" ++ nl ++ nl ++ "*點擊查看更多詳細資料*".

Definition loading_item : StatusBarItem.t :=
  StatusBarItem.mk "$(book) 日文單字載入中..." "正在載入日文單字資料...".

(** [updateStatusBar()]: draws the current word and returns what it has
    written to the status bar item. *)
Definition updateStatusBar : M StatusBarItem.t :=
  r <- getRandomWord ;;
  set_currentWord r ;;;
  match r with
  | Obj r =>
      w <- deref r ;;
      let reading := joined "／" (JapaneseWord.reading w) in
      let japanese := joined "／" (JapaneseWord.japanese w) in
      let text := "$(book) " ++ japanese ++ " (" ++ reading ++ ")" in
      ret (StatusBarItem.mk text (hover_tooltip w))
  | _ => ret loading_item
  end.

Definition quiz_not_built_message : string := "無法生成練習題目".
Definition quiz_error_message : string := "出題功能發生錯誤，請稍後再試".

(** [startQuiz()]; [choice] is the position of the item the user picks in
    the quick pick, [None] when the user dismisses it. *)
Definition startQuiz (fuel : nat) (choice : option nat) : M unit :=
  try_catch
    (s <- get_state ;;
     gated <- match wordManager s with
              | None => ret true
              | Some _ =>
                  current <- getCurrentWord ;;
                  ret (match current with Null => true | _ => false end)
              end ;;
     if (gated : bool) then show (ShowWarningMessage not_loaded_message)
     else
       question <- generateQuizQuestion fuel ;;
       match question with
       | None => show (ShowErrorMessage quiz_not_built_message)
       | Some question =>
           let items := quick_pick_items (QuizQuestion.options question) in
           show (ShowQuickPick items (QuizQuestion.questionText question)) ;;;
           match choice ≫= (items !!.) with
           | Some selectedAnswer =>
               if isCorrect (answerData selectedAnswer) then
                 show (ShowInformationMessage "🎉 答對了！繼續加油！")
               else
                 show (ShowWarningMessage
                         ("❌ 答錯了！正確答案是：" ++ to_string (QuizQuestion.correctAnswer question)))
           | None => ret tt
           end
       end)
    (fun _ => show (ShowErrorMessage quiz_error_message)).

(** [activate(context)], without the registration of the commands and
    without the 30 s timer of [startAutoUpdate]: the manager is created, the
    vocabulary is loaded and the status bar is updated once. *)
Definition activate (JSON_parse : string -> option Parsed) (net : Transport)
    : M StatusBarItem.t :=
  new_JapaneseWordManager ;;;
  loadVocabularyData JSON_parse net ;;;
  updateStatusBar.

(** The prompt of a question of each type. *)
Definition quiz_prompt (p : Projection) (tw : JapaneseWord.t) : string :=
  match p with
  | Meaning => "請選擇「" ++ to_string (first_written tw) ++ "」的正確意思："
  | Reading => "請選擇「" ++ to_string (first_written tw) ++ "」的正確讀音："
  | WrittenForm => "哪個漢字的意思是「" ++ to_string (first_meaning tw) ++ "」？"
  end.

(** A session with a stale current word: the word was drawn from the
    default words, then a reload brought an empty collection. *)
Definition stale_state : State :=
  state_after (loadVocabularyData blank_response (Response 200 ["{}"]))
    (state_after updateStatusBar fallback_state).

(** The session after the status bar has shown one of the default words. *)
Definition shown_state : State := state_after updateStatusBar fallback_state.

(** What a quiz command shows after the quick pick: nothing when it was
    dismissed, the praise when the picked option is flagged correct, and
    otherwise a warning that names the correct answer. *)
Definition feedback_for (praise : string) (correctAnswer : jsval) (picked : option QuizOption)
    : list UiEvent :=
  match picked with
  | None => []
  | Some o =>
      if isCorrect o then [ShowInformationMessage praise]
      else [ShowWarningMessage ("❌ 答錯了！正確答案是：" ++ to_string correctAnswer)]
  end.

(** The session [s] with another source of random values. *)
Definition with_random (rnd : nat -> UnitFrac) (s : State) : State :=
  mkState (heap s) (wordManager s) rnd (draws s) (ui s).

(** * Proofs *)

(** ** Arithmetic and arrays *)

Lemma floor_mul_lt r n : (0 < n)%nat → (floor_mul r n < n)%nat.
Proof.
  intros Hn. unfold floor_mul. pose proof (in_unit r) as Hr.
  apply Nat.Div0.div_lt_upper_bound. nia.
Qed.

Lemma indexOf_lookup (arr : list loc) k r :
  arr !! k = Some r →
  ∃ i, (i ≤ k)%nat ∧ arr !! i = Some r ∧ indexOf arr r = Z.of_nat i.
Proof.
  revert k. induction arr as [|y arr IH]; intros k Hk; [done|].
  simpl. destruct (decide (y = r)) as [->|Hne].
  - exists 0%nat. split; [lia|]. done.
  - destruct k as [|k]; simpl in Hk; [congruence|].
    destruct (IH _ Hk) as (i & Hi & Hl & ->).
    exists (S i). split; [lia|]. split; [done|].
    destruct (Z.ltb_spec (Z.of_nat i) 0); lia.
Qed.

Lemma splice_delete {A} (arr : list A) (i : nat) :
  (i < length arr)%nat → splice (Z.of_nat i) 1 arr = delete i arr.
Proof.
  intros Hi. unfold splice.
  destruct (Z.ltb_spec (Z.of_nat i) 0) as [?|_]; [lia|].
  rewrite Z.min_l by lia. rewrite Nat2Z.id.
  replace (i + 1 `min` (length arr - i))%nat with (S i) by lia.
  revert i Hi. induction arr as [|a arr IH]; intros [|i] Hi; simpl in *; try lia.
  - by rewrite drop_0.
  - f_equal. apply IH. lia.
Qed.

(** ** Running the primitives *)

Lemma bind_Ret {A B} (m : M A) (k : A → M B) s a s' :
  m s = Ret a s' → bind m k s = k a s'.
Proof. intros H. unfold bind. by rewrite H. Qed.

Lemma array_get_ok a es s : heap s !! a = Some (CArray es) → array_get a s = Ret es s.
Proof. intros H. unfold array_get. by rewrite H. Qed.

Lemma deref_ok r w s : heap s !! r = Some (CWord w) → deref r s = Ret w s.
Proof. intros H. unfold deref. by rewrite H. Qed.

Lemma array_set_ok a es es' s :
  heap s !! a = Some (CArray es) →
  array_set a es' s = Ret tt (set_heap (<[a:=CArray es']> (heap s)) s).
Proof. intros H. unfold array_set. by rewrite H. Qed.

Lemma random_index_run n s :
  random_index n s = Ret (floor_mul (random s (draws s)) n) (set_draws (S (draws s)) s).
Proof. reflexivity. Qed.

Lemma pointed_length h rs ws : pointed h rs ws → length rs = length ws.
Proof. apply Forall2_length. Qed.

Lemma pointed_lookup h rs ws k r :
  pointed h rs ws → rs !! k = Some r → ∃ w, ws !! k = Some w ∧ h !! r = Some (CWord w).
Proof. intros Hp Hk. destruct (Forall2_lookup_l _ _ _ _ _ Hp Hk) as (w & ? & ?). eauto. Qed.

Lemma pointed_insert_array h rs ws a es es' :
  h !! a = Some (CArray es) → pointed h rs ws → pointed (<[a:=CArray es']> h) rs ws.
Proof.
  intros Ha Hp. eapply Forall2_impl; [exact Hp|]. intros r w Hr. simpl in Hr.
  rewrite lookup_insert_ne; [done|]. intros ->. congruence.
Qed.

Lemma pointed_fresh h rs ws c :
  pointed h rs ws → pointed (<[fresh (dom h):=c]> h) rs ws.
Proof.
  intros Hp. eapply Forall2_impl; [exact Hp|]. intros r w Hr. simpl in Hr.
  rewrite lookup_insert_ne; [done|]. intros <-.
  pose proof (is_fresh (dom h)) as Hf. apply Hf. apply elem_of_dom. eauto.
Qed.

Lemma elem_of_delete_fmap {A B} (f : A → B) (l : list A) i x v :
  l !! i = Some x → v ∈ f <$> l → v = f x ∨ v ∈ f <$> delete i l.
Proof.
  intros Hi Hv. rewrite (delete_Permutation l i x Hi) in Hv.
  rewrite fmap_cons in Hv. by apply elem_of_cons in Hv.
Qed.

Lemma elem_of_fmap_delete {A B} (f : A → B) (l : list A) i v :
  v ∈ f <$> delete i l → v ∈ f <$> l.
Proof.
  intros Hv. apply list_elem_of_fmap in Hv as (y & -> & Hy).
  apply list_elem_of_fmap. exists y. split; [done|].
  by eapply list_elem_of_delete_inv.
Qed.

Section Loop.
Variable proj : JapaneseWord.t → jsval.
Variable count : Z.
Variable otherWords : loc.

Lemma sample_loop_exit fuel s ow meanings :
  heap s !! otherWords = Some (CArray ow) →
  (Z.of_nat (length meanings) <? count)%Z && (0 <? length ow)%nat = false →
  sample_loop fuel proj count otherWords meanings s = Ret meanings s.
Proof.
  intros How Hguard. destruct fuel; simpl; unfold bind;
    by rewrite (array_get_ok _ _ _ How), Hguard.
Qed.

Lemma sample_loop_spec m : ∀ s ow wsp meanings,
  length ow = m →
  heap s !! otherWords = Some (CArray ow) →
  pointed (heap s) ow wsp →
  ∃ meanings' ow' wsp' s' n,
    (∀ fuel, (n ≤ fuel)%nat →
       sample_loop fuel proj count otherWords meanings s = Ret meanings' s') ∧
    (∀ fuel, (fuel < n)%nat →
       sample_loop fuel proj count otherWords meanings s = Abort OutOfFuel) ∧
    heap s' = <[otherWords:=CArray ow']> (heap s) ∧
    same_session s s' ∧
    draws s' = (draws s + n)%nat ∧
    (n + length ow' = length ow)%nat ∧
    length wsp' = length ow' ∧
    ((count ≤ Z.of_nat (length meanings'))%Z ∨ ow' = []) ∧
    (Z.of_nat (length meanings') ≤ Z.max count (Z.of_nat (length meanings)))%Z ∧
    (NoDup meanings → NoDup meanings') ∧
    (∀ v, v ∈ meanings → v ∈ meanings') ∧
    (∀ v, v ∈ meanings' → v ∈ meanings ∨ v ∈ proj <$> wsp) ∧
    (∀ v, v ∈ proj <$> wsp → v ∈ meanings' ∨ v ∈ proj <$> wsp').
Proof.
  induction m as [|m IH]; intros s ow wsp meanings Hm How Hp.
  - (* the pool is empty: the guard fails *)
    destruct ow; [|done].
    exists meanings, [], wsp, s, 0%nat.
    split. { intros fuel _. apply sample_loop_exit with (ow := []); [done|]. apply andb_false_r. }
    split. { intros fuel Hf. lia. }
    split; [by rewrite insert_id|]. split; [done|].
    split; [lia|]. split; [done|]. split; [by rewrite <- (pointed_length _ _ _ Hp)|].
    split; [by right|]. split; [lia|]. naive_solver.
  - destruct ((Z.of_nat (length meanings) <? count)%Z && (0 <? length ow)%nat) eqn:Hguard.
    2:{ (* the loop exits at once *)
      exists meanings, ow, wsp, s, 0%nat.
      split. { intros fuel _. by apply sample_loop_exit with (ow := ow). }
      split. { intros fuel Hf. lia. }
      split; [by rewrite insert_id|]. split; [done|].
      split; [lia|]. split; [done|]. split; [by rewrite <- (pointed_length _ _ _ Hp)|].
      split.
      { apply andb_false_iff in Hguard as [H|H].
        - left. apply Z.ltb_ge in H. lia.
        - right. apply Nat.ltb_ge in H. destruct ow; [done|simpl in H; lia]. }
      split; [lia|]. naive_solver. }
    apply andb_true_iff in Hguard as [Hlt Hpos].
    assert (Hguard : (Z.of_nat (length meanings) <? count)%Z && (0 <? length ow)%nat = true)
      by (by rewrite Hlt, Hpos).
    apply Z.ltb_lt in Hlt. apply Nat.ltb_lt in Hpos.
    (* one iteration *)
    set (k := floor_mul (random s (draws s)) (length ow)).
    assert (Hk : (k < length ow)%nat) by (by apply floor_mul_lt).
    destruct (lookup_lt_is_Some_2 _ _ Hk) as [r Hr].
    destruct (indexOf_lookup _ _ _ Hr) as (i & Hik & Hi & Hidx).
    destruct (pointed_lookup _ _ _ _ _ Hp Hi) as (w & Hwi & Hw).
    assert (Hi' : (i < length ow)%nat) by (by apply lookup_lt_Some in Hi).
    set (s1 := set_draws (S (draws s)) s).
    set (meanings1 := if includes meanings (proj w) then meanings else push meanings (proj w)).
    set (ow1 := delete i ow).
    set (s2 := set_heap (<[otherWords:=CArray ow1]> (heap s1)) s1).
    assert (Hbody : sample_body proj otherWords meanings s = Ret meanings1 s2).
    { unfold sample_body, bind. rewrite (array_get_ok _ _ _ How).
      rewrite random_index_run. fold k. fold s1. unfold index. rewrite Hr.
      rewrite (deref_ok r w s1) by done.
      rewrite (array_set_ok otherWords ow _ s1) by done.
      by rewrite Hidx, splice_delete. }
    assert (Hlen1 : length ow1 = m).
    { unfold ow1. rewrite length_delete by eauto. lia. }
    destruct (IH s2 ow1 (delete i wsp) meanings1) as
      (meanings' & ow' & wsp' & s' & n & Hrun & Hout & Hheap & Hsess & Hdraws & Hiter
         & Hlen & Hexit & Hbound & Hnd & Hmono & Hfrom & Hall).
    { done. }
    { simpl. by rewrite lookup_insert_eq. }
    { simpl. eapply pointed_insert_array; [exact How|]. by apply Forall2_delete. }
    exists meanings', ow', wsp', s', (S n).
    split.
    { intros [|fuel] Hf; [lia|]. simpl. unfold bind at 1.
      rewrite (array_get_ok _ _ _ How), Hguard. unfold bind. rewrite Hbody.
      apply Hrun. lia. }
    split.
    { intros [|fuel] Hf; simpl; unfold bind at 1;
        rewrite (array_get_ok _ _ _ How), Hguard; [done|].
      unfold bind. rewrite Hbody. apply Hout. lia. }
    split. { rewrite Hheap. simpl. by rewrite insert_insert_eq. }
    split. { destruct Hsess as (? & ? & ?). done. }
    split. { rewrite Hdraws. simpl. lia. }
    split. { lia. }
    split; [done|]. split; [done|].
    assert (Hlenm : (Z.of_nat (length meanings1) ≤ Z.of_nat (length meanings) + 1)%Z).
    { unfold meanings1, push. destruct (includes _ _); rewrite ?length_app; simpl; lia. }
    split; [clear -Hbound Hlenm Hlt; lia|].
    assert (Hin1 : ∀ v, v ∈ meanings1 ↔ v ∈ meanings ∨ v = proj w).
    { intros v. unfold meanings1, includes, push. case_bool_decide.
      - split; [by left|]. intros [?| ->]; done.
      - rewrite elem_of_app, list_elem_of_singleton. done. }
    split.
    { intros Hnd0. apply Hnd. unfold meanings1, includes, push. case_bool_decide; [done|].
      apply NoDup_app. split; [done|]. split; [|apply NoDup_singleton].
      intros v Hv Hv'. apply list_elem_of_singleton in Hv'. by subst. }
    split. { intros v Hv. apply Hmono, Hin1. by left. }
    split.
    { intros v Hv. destruct (Hfrom v Hv) as [H|H].
      - apply Hin1 in H as [H| ->]; [by left|]. right.
        apply list_elem_of_fmap. exists w. split; [done|]. by eapply list_elem_of_lookup_2.
      - right. by eapply elem_of_fmap_delete. }
    intros v Hv. destruct (elem_of_delete_fmap proj wsp i w v Hwi Hv) as [->|H].
    + left. apply Hmono, Hin1. by right.
    + by apply Hall.
Qed.
End Loop.

(** ** The sampler *)

Lemma word_at_Some h r w : word_at h r = Some w ↔ h !! r = Some (CWord w).
Proof.
  unfold word_at. destruct (h !! r) as [[w'|es]|]; split; intros H; congruence.
Qed.

Lemma store_Some s ws :
  store s = Some ws ↔
  ∃ this rs, wordManager s = Some this ∧ heap s !! words this = Some (CArray rs) ∧
             pointed (heap s) rs ws.
Proof.
  unfold store, pointed. split.
  - intros H. destruct (wordManager s) as [this|]; [|done]. simpl in H.
    destruct (heap s !! words this) as [[w|rs]|] eqn:Hw; try done.
    exists this, rs. split; [done|]. split; [done|].
    apply mapM_Some in H. eapply Forall2_impl; [exact H|].
    intros r w Hr. by apply word_at_Some.
  - intros (this & rs & Hm & Hw & Hp). rewrite Hm. simpl. rewrite Hw. apply mapM_Some.
    eapply Forall2_impl; [exact Hp|]. intros r w Hr. by apply word_at_Some.
Qed.

Lemma this_words_ok s this : wordManager s = Some this → this_words s = Ret (words this) s.
Proof. intros H. unfold this_words. by rewrite H. Qed.

Lemma filter_refs_spec (p : JapaneseWord.t → bool) (P : JapaneseWord.t → Prop)
    `{∀ w, Decision (P w)} s :
  (∀ w, p w = bool_decide (P w)) →
  ∀ rs ws, pointed (heap s) rs ws →
  ∃ kept, filter_refs p rs s = Ret kept s ∧ pointed (heap s) kept (filter P ws).
Proof.
  intros Hp rs ws Hpt. induction Hpt as [|r w rs ws Hr _ (kept & Hrun & Hkept)].
  - exists []. split; [done|]. constructor.
  - simpl. unfold bind. rewrite (deref_ok _ _ _ Hr), Hrun. unfold ret.
    rewrite Hp, filter_cons. case_bool_decide.
    + rewrite decide_True by done. exists (r :: kept). split; [done|]. by constructor.
    + rewrite decide_False by done. exists kept. done.
Qed.

Lemma array_filter_spec (p : JapaneseWord.t → bool) (P : JapaneseWord.t → Prop)
    `{∀ w, Decision (P w)} s a rs ws :
  (∀ w, p w = bool_decide (P w)) →
  heap s !! a = Some (CArray rs) →
  pointed (heap s) rs ws →
  ∃ kept, array_filter p a s
          = Ret (fresh (dom (heap s))) (set_heap (<[fresh (dom (heap s)):=CArray kept]> (heap s)) s) ∧
          pointed (heap s) kept (filter P ws).
Proof.
  intros Hp Ha Hpt. destruct (filter_refs_spec p P s Hp rs ws Hpt) as (kept & Hrun & Hkept).
  exists kept. split; [|done].
  unfold array_filter, bind. by rewrite (array_get_ok _ _ _ Ha), Hrun.
Qed.

Lemma fresh_lookup_ne (h : gmap loc cell) l c : h !! l = Some c → l ≠ fresh (dom h).
Proof.
  intros Hl ->. apply (is_fresh (dom h)). apply elem_of_dom. eauto.
Qed.

(** What one call of the sampler does. *)
Lemma sample_spec proj excludeId count s ws :
  store s = Some ws →
  ∃ vs s' rest n,
    (∀ fuel, (n ≤ fuel)%nat → sample fuel proj excludeId count s = Ret vs s') ∧
    (∀ fuel, (fuel < n)%nat → sample fuel proj excludeId count s = Abort OutOfFuel) ∧
    same_session s s' ∧
    heap s' = <[fresh (dom (heap s)):=CArray rest]> (heap s) ∧
    draws s' = (draws s + n)%nat ∧
    (n + length rest = length (candidates excludeId ws))%nat ∧
    ((count ≤ Z.of_nat (length vs))%Z ∨ rest = []) ∧
    (Z.of_nat (length vs) ≤ Z.max count 0)%Z ∧
    NoDup vs ∧
    (∀ v, v ∈ vs → v ∈ proj <$> candidates excludeId ws) ∧
    ((count ≤ Z.of_nat (length vs))%Z ∨ ∀ v, v ∈ proj <$> candidates excludeId ws → v ∈ vs).
Proof.
  intros Hstore.
  apply store_Some in Hstore as (this & rs & Hthis & Hrs & Hpt).
  destruct (array_filter_spec
              (λ word, bool_decide (JapaneseWord.id word ≠ excludeId))
              (λ word, JapaneseWord.id word ≠ excludeId) s (words this) rs ws)
    as (kept & Hfilter & Hkept); [done..|].
  fold (candidates excludeId ws) in Hkept.
  set (a := fresh (dom (heap s))) in *.
  set (s1 := set_heap (<[a:=CArray kept]> (heap s)) s) in *.
  destruct (sample_loop_spec proj count a (length kept) s1 kept (candidates excludeId ws) [])
    as (vs & rest & wsp' & s' & n & Hrun & Hout & Hheap & Hsess & Hdraws & Hiter & Hlen
          & Hexit & Hbound & Hnd & _ & Hfrom & Hall).
  { done. }
  { simpl. by rewrite lookup_insert_eq. }
  { simpl. by apply pointed_fresh. }
  assert (Hstart : ∀ fuel, sample fuel proj excludeId count s
                           = sample_loop fuel proj count a [] s1).
  { intros fuel. unfold sample, bind. by rewrite (this_words_ok _ _ Hthis), Hfilter. }
  exists vs, s', rest, n.
  split. { intros fuel Hf. rewrite Hstart. by apply Hrun. }
  split. { intros fuel Hf. rewrite Hstart. by apply Hout. }
  split; [done|].
  split. { rewrite Hheap. simpl. by rewrite insert_insert_eq. }
  split; [done|].
  split. { by rewrite <- (pointed_length _ _ _ Hkept). }
  split; [done|]. split; [done|]. split; [apply Hnd, NoDup_nil_2|].
  split.
  { intros v Hv. destruct (Hfrom v Hv) as [H|H]; [|done]. by apply elem_of_nil in H. }
  destruct Hexit as [H| ->]; [by left|]. right. intros v Hv.
  destruct (Hall v Hv) as [H|H]; [done|].
  destruct wsp'; [|done]. by apply elem_of_nil in H.
Qed.

Lemma sampler_sample p : sampler p = λ fuel, sample fuel (project p).
Proof. by destruct p. Qed.

Lemma preserves_heap_store s s' ws :
  preserves_heap s s' → wordManager s' = wordManager s → store s = Some ws → store s' = Some ws.
Proof.
  intros Hh Hm Hs. apply store_Some in Hs as (this & rs & Hthis & Hrs & Hpt).
  apply store_Some. exists this, rs. split; [congruence|]. split; [by apply Hh|].
  eapply Forall2_impl; [exact Hpt|]. intros r w Hr. by apply Hh.
Qed.

Lemma preserves_heap_fresh s s' c :
  heap s' = <[fresh (dom (heap s)):=c]> (heap s) → preserves_heap s s'.
Proof.
  intros Hh l c' Hl. rewrite Hh, lookup_insert_ne; [done|].
  apply not_eq_sym. by eapply fresh_lookup_ne.
Qed.

Lemma NoDup_covering_length {A} `{EqDecision A} (vs l : list A) :
  NoDup vs → (∀ v, v ∈ vs → v ∈ l) → (∀ v, v ∈ l → v ∈ vs) →
  length vs = length (remove_dups l).
Proof.
  intros Hnd Hsub Hsup. apply Permutation_length, NoDup_Permutation; [done|apply NoDup_remove_dups|].
  intros v. rewrite elem_of_remove_dups. split; auto.
Qed.

Lemma NoDup_within_length {A} `{EqDecision A} (vs l : list A) :
  NoDup vs → (∀ v, v ∈ vs → v ∈ l) → (length vs ≤ length (remove_dups l))%nat.
Proof.
  intros Hnd Hsub. apply submseteq_length, NoDup_submseteq; [done|].
  intros v Hv. apply elem_of_remove_dups. auto.
Qed.

(** C3. For every store, excluded id and count (a count is not negative),
    the sampler returns, whatever the iteration budget above the pool size,
    a list without duplicate values whose length is at most [count]. *)
Theorem sample_distinct_and_bounded p excludeId count s ws :
  store s = Some ws →
  (0 ≤ count)%Z →
  ∃ vs s',
    (∀ fuel, (length (candidates excludeId ws) ≤ fuel)%nat →
       sampler p fuel excludeId count s = Ret vs s') ∧
    NoDup vs ∧
    (Z.of_nat (length vs) ≤ count)%Z.
Proof.
  intros Hstore Hcount. rewrite sampler_sample.
  destruct (sample_spec (project p) excludeId count s ws Hstore)
    as (vs & s' & rest & n & Hrun & _ & _ & _ & _ & Hn & _ & Hlen & Hnd & _).
  exists vs, s'. split; [|split; [done|lia]].
  intros fuel Hf. apply Hrun. lia.
Qed.

Lemma sample_distinct_and_bounded_witness :
  store fallback_state = Some defaultWords ∧
  (0 ≤ 3)%Z ∧
  ∃ vs s',
    (∀ fuel, (length (candidates "1" defaultWords) ≤ fuel)%nat →
       sampler Meaning fuel "1" 3 fallback_state = Ret vs s') ∧
    NoDup vs ∧
    (Z.of_nat (length vs) ≤ 3)%Z.
Proof.
  assert (Hstore : store fallback_state = Some defaultWords) by (vm_compute; reflexivity).
  assert (Hcount : (0 ≤ 3)%Z) by lia.
  split; [exact Hstore|]. split; [exact Hcount|].
  exact (sample_distinct_and_bounded Meaning "1" 3 fallback_state defaultWords Hstore Hcount).
Defined.

(** C5. The sampling loop exits after exactly [n] iterations, with [n] at
    most the size of the candidate pool: a budget of [n] iterations or more
    gives the result, a smaller one is spent before the loop exits.  Each
    iteration consumes one random value and removes one Word from the
    working copy, appended or not, so that [n] Words are gone from the copy
    at the end. *)
Theorem sample_terminates p excludeId count s ws :
  store s = Some ws →
  ∃ vs s' n rest,
    (n ≤ length (candidates excludeId ws))%nat ∧
    (∀ fuel, (n ≤ fuel)%nat → sampler p fuel excludeId count s = Ret vs s') ∧
    (∀ fuel, (fuel < n)%nat → sampler p fuel excludeId count s = Abort OutOfFuel) ∧
    draws s' = (draws s + n)%nat ∧
    heap s' !! fresh (dom (heap s)) = Some (CArray rest) ∧
    (length rest + n = length (candidates excludeId ws))%nat.
Proof.
  intros Hstore. rewrite sampler_sample.
  destruct (sample_spec (project p) excludeId count s ws Hstore)
    as (vs & s' & rest & n & Hrun & Hout & _ & Hheap & Hdraws & Hn & _).
  exists vs, s', n, rest. split; [lia|]. split; [done|]. split; [done|]. split; [done|].
  split; [|lia]. by rewrite Hheap, lookup_insert_eq.
Qed.

Lemma sample_terminates_witness :
  store twin_state = Some [twin1; twin2] ∧
  ∃ vs s' n rest,
    (n ≤ length (candidates "3" [twin1; twin2]))%nat ∧
    (∀ fuel, (n ≤ fuel)%nat → sampler Meaning fuel "3" 3 twin_state = Ret vs s') ∧
    (∀ fuel, (fuel < n)%nat → sampler Meaning fuel "3" 3 twin_state = Abort OutOfFuel) ∧
    draws s' = (draws twin_state + n)%nat ∧
    heap s' !! fresh (dom (heap twin_state)) = Some (CArray rest) ∧
    (length rest + n = length (candidates "3" [twin1; twin2]))%nat.
Proof.
  assert (Hstore : store twin_state = Some [twin1; twin2]) by (vm_compute; reflexivity).
  split; [exact Hstore|].
  exact (sample_terminates Meaning "3" 3 twin_state [twin1; twin2] Hstore).
Defined.

(** C9. A call of the sampler leaves the store as it was: the only cell of
    the heap it writes is the array it has allocated for its working copy,
    so every cell that existed before (the array [this.words] and every
    word object) is unchanged, [wordManager] still points to the same
    array, and the collection read from the store is the same. *)
Theorem sample_preserves_store p excludeId count s ws fuel :
  store s = Some ws →
  (length (candidates excludeId ws) ≤ fuel)%nat →
  ∃ vs s' rest,
    sampler p fuel excludeId count s = Ret vs s' ∧
    heap s' = <[fresh (dom (heap s)):=CArray rest]> (heap s) ∧
    heap s !! fresh (dom (heap s)) = None ∧
    preserves_heap s s' ∧
    wordManager s' = wordManager s ∧
    store s' = Some ws.
Proof.
  intros Hstore Hfuel. rewrite sampler_sample.
  destruct (sample_spec (project p) excludeId count s ws Hstore)
    as (vs & s' & rest & n & Hrun & _ & (Hm & _) & Hheap & _ & Hn & _).
  assert (Hpres : preserves_heap s s') by (by eapply preserves_heap_fresh).
  exists vs, s', rest. split; [apply Hrun; lia|]. split; [done|].
  split. { apply not_elem_of_dom, is_fresh. }
  split; [done|]. split; [done|].
  by apply (preserves_heap_store s s').
Qed.

Lemma sample_preserves_store_witness :
  store fallback_state = Some defaultWords ∧
  (length (candidates "2" defaultWords) ≤ 2)%nat ∧
  ∃ vs s' rest,
    sampler Reading 2 "2" 3 fallback_state = Ret vs s' ∧
    heap s' = <[fresh (dom (heap fallback_state)):=CArray rest]> (heap fallback_state) ∧
    heap fallback_state !! fresh (dom (heap fallback_state)) = None ∧
    preserves_heap fallback_state s' ∧
    wordManager s' = wordManager fallback_state ∧
    store s' = Some defaultWords.
Proof.
  assert (Hstore : store fallback_state = Some defaultWords) by (vm_compute; reflexivity).
  assert (Hfuel : (length (candidates "2" defaultWords) ≤ 2)%nat) by (vm_compute; lia).
  split; [exact Hstore|]. split; [exact Hfuel|].
  exact (sample_preserves_store Reading "2" 3 fallback_state defaultWords 2 Hstore Hfuel).
Defined.

(** C10. For a count that is not negative, the length of the sampler's
    result is the minimum of [count] and of the number of distinct projected
    values among the Words whose id differs from [excludeId]. *)
Theorem sample_length p excludeId count s ws :
  store s = Some ws →
  (0 ≤ count)%Z →
  ∃ vs s',
    (∀ fuel, (length (candidates excludeId ws) ≤ fuel)%nat →
       sampler p fuel excludeId count s = Ret vs s') ∧
    Z.of_nat (length vs)
    = Z.min count (Z.of_nat (length (remove_dups (project p <$> candidates excludeId ws)))).
Proof.
  intros Hstore Hcount. rewrite sampler_sample.
  destruct (sample_spec (project p) excludeId count s ws Hstore)
    as (vs & s' & rest & n & Hrun & _ & _ & _ & _ & Hn & _ & Hlen & Hnd & Hfrom & Hall).
  exists vs, s'. split; [intros fuel Hf; apply Hrun; lia|].
  pose proof (NoDup_within_length vs _ Hnd Hfrom) as Hle.
  destruct Hall as [Hfull|Hall].
  - lia.
  - rewrite <- (NoDup_covering_length vs _ Hnd Hfrom Hall). lia.
Qed.

Lemma sample_length_witness :
  store fallback_state = Some defaultWords ∧
  (0 ≤ 3)%Z ∧
  ∃ vs s',
    (∀ fuel, (length (candidates "1" defaultWords) ≤ fuel)%nat →
       sampler Meaning fuel "1" 3 fallback_state = Ret vs s') ∧
    Z.of_nat (length vs)
    = Z.min 3 (Z.of_nat (length (remove_dups (project Meaning <$> candidates "1" defaultWords)))).
Proof.
  assert (Hstore : store fallback_state = Some defaultWords) by (vm_compute; reflexivity).
  assert (Hcount : (0 ≤ 3)%Z) by lia.
  split; [exact Hstore|]. split; [exact Hcount|].
  exact (sample_length Meaning "1" 3 fallback_state defaultWords Hstore Hcount).
Defined.

(** C2, as amended. Every value the sampler returns is the projection of a
    Word of the store whose id differs from [excludeId]: the excluded Word
    is never drawn.  (Its value can still be returned, drawn from another
    Word that shares it.) *)
Theorem sample_from_candidates p excludeId count s ws :
  store s = Some ws →
  ∃ vs s',
    (∀ fuel, (length (candidates excludeId ws) ≤ fuel)%nat →
       sampler p fuel excludeId count s = Ret vs s') ∧
    ∀ v, v ∈ vs → ∃ w, w ∈ ws ∧ JapaneseWord.id w ≠ excludeId ∧ project p w = v.
Proof.
  intros Hstore. rewrite sampler_sample.
  destruct (sample_spec (project p) excludeId count s ws Hstore)
    as (vs & s' & rest & n & Hrun & _ & _ & _ & _ & Hn & _ & _ & _ & Hfrom & _).
  exists vs, s'. split; [intros fuel Hf; apply Hrun; lia|].
  intros v Hv. apply Hfrom, list_elem_of_fmap in Hv as (w & -> & Hw).
  apply list_elem_of_filter in Hw as [Hid Hw]. eauto.
Qed.

Lemma sample_from_candidates_witness :
  store twin_state = Some [twin1; twin2] ∧
  ∃ vs s',
    (∀ fuel, (length (candidates "1" [twin1; twin2]) ≤ fuel)%nat →
       sampler Meaning fuel "1" 3 twin_state = Ret vs s') ∧
    ∀ v, v ∈ vs → ∃ w, w ∈ [twin1; twin2] ∧ JapaneseWord.id w ≠ "1" ∧ project Meaning w = v.
Proof.
  assert (Hstore : store twin_state = Some [twin1; twin2]) by (vm_compute; reflexivity).
  split; [exact Hstore|].
  exact (sample_from_candidates Meaning "1" 3 twin_state [twin1; twin2] Hstore).
Defined.

(** C2, as stated, fails: in a store of two Words with ids "1" and "2" and
    the same first meaning, sampling meanings with "1" excluded returns that
    meaning, which is the value projected from the Word whose id is "1". *)
Lemma sample_returns_excluded_value :
  store twin_state = Some [twin1; twin2] ∧
  JapaneseWord.id twin1 = "1" ∧
  project Meaning twin1 = JStr "老師" ∧
  sampler Meaning 1 "1" 3 twin_state
  = Ret [JStr "老師"] (state_after (sampler Meaning 1 "1" 3) twin_state) ∧
  project Meaning twin1 ∈ [JStr "老師"].
Proof.
  split; [vm_compute; reflexivity|]. split; [reflexivity|]. split; [reflexivity|].
  split; [vm_compute; reflexivity|]. left.
Qed.

(** ** The shuffle *)

Lemma length_filter_fmap {A B} (P : B → Prop) `{∀ x, Decision (P x)} (f : A → B) (l : list A) :
  length (filter P (f <$> l)) = length (filter (λ a, P (f a)) l).
Proof.
  induction l as [|a l IH]; [done|]. rewrite fmap_cons, !filter_cons.
  destruct (decide (P (f a))); simpl; by rewrite IH.
Qed.

Lemma length_filter_ext {A} (P Q : A → Prop) `{∀ x, Decision (P x)} `{∀ x, Decision (Q x)}
    (l : list A) :
  (∀ a, a ∈ l → P a ↔ Q a) → length (filter P l) = length (filter Q l).
Proof.
  induction l as [|a l IH]; intros Hext; [done|]. rewrite !filter_cons.
  assert (Ha : P a ↔ Q a) by (apply Hext; left).
  assert (IH' : length (filter P l) = length (filter Q l)).
  { apply IH. intros b Hb. apply Hext. by right. }
  destruct (decide (P a)), (decide (Q a)); simpl; try tauto; by rewrite IH'.
Qed.

Lemma quotient_block (d j : nat) : ∀ n,
  (0 < d)%nat →
  length (filter (λ a, a / d = j)%nat (seq 0 (d * n))) = if decide (j < n)%nat then d else 0%nat.
Proof.
  intros n Hd. induction n as [|n IH].
  - rewrite Nat.mul_0_r. destruct (decide (j < 0)%nat); [lia|done].
  - replace (d * S n)%nat with (d * n + d)%nat by lia.
    rewrite seq_app, filter_app, length_app, IH. simpl.
    destruct (decide (j = n)) as [->|Hne].
    + rewrite (length_filter_ext _ (λ _, True)).
      2:{ intros a Ha. apply elem_of_seq in Ha. split; [done|]. intros _.
          symmetry. apply Nat.div_unique with (r := (a - d * n)%nat); lia. }
      rewrite decide_False by lia. rewrite decide_True by lia.
      assert (Hall : ∀ l : list nat, filter (λ _, True) l = l).
      { induction l as [|x l IHl]; [done|]. rewrite filter_cons_True by done. by rewrite IHl. }
      rewrite Hall, length_seq. done.
    + rewrite (length_filter_ext _ (λ _, False)).
      2:{ intros a Ha. apply elem_of_seq in Ha. split; [|done]. intros Hq.
          apply Hne. rewrite <- Hq. symmetry.
          apply Nat.div_unique with (r := (a - d * n)%nat); lia. }
      assert (Hnone : ∀ l : list nat, filter (λ _, False) l = []).
      { induction l as [|x l IHl]; [done|]. rewrite filter_cons_False; [done|tauto]. }
      rewrite Hnone. simpl. repeat case_decide; lia.
Qed.

Lemma floor_mul_grid (d n a : nat) :
  (0 < n)%nat → (a < d * n)%nat → floor_mul (frac a (d * n - 1 - a)) n = (a / d)%nat.
Proof.
  intros Hn Ha. unfold floor_mul, frac. simpl.
  replace (a + (d * n - 1 - a) + 1)%nat with (d * n)%nat by lia.
  apply Nat.Div0.div_mul_cancel_r. lia.
Qed.

Lemma random_index_uniform (d i j : nat) :
  (0 < d)%nat → (j ≤ i)%nat →
  length (filter (λ r, floor_mul r (i + 1) = j) (grid d (i + 1))) = d.
Proof.
  intros Hd Hj. unfold grid. rewrite length_filter_fmap.
  rewrite (length_filter_ext _ (λ a, a / d = j)%nat).
  - rewrite quotient_block by done. rewrite decide_True by lia. done.
  - intros a Ha. apply elem_of_seq in Ha. rewrite floor_mul_grid by lia. done.
Qed.

Lemma swap_exchange {A} (i j : nat) (l : list A) :
  (i < length l)%nat → (j < length l)%nat → swap i j l = Some (exchange i j l).
Proof.
  intros Hi Hj. unfold swap, exchange.
  destruct (lookup_lt_is_Some_2 _ _ Hi) as [a Ha].
  destruct (lookup_lt_is_Some_2 _ _ Hj) as [b Hb].
  rewrite Ha, Hb. f_equal.
  destruct (decide (i = j)) as [->|Hne].
  - by simplify_eq.
  - by apply list_insert_insert_ne, not_eq_sym.
Qed.

Lemma exchange_length {A} (i j : nat) (l : list A) : length (exchange i j l) = length l.
Proof.
  unfold exchange. destruct (l !! i), (l !! j); by rewrite ?length_insert.
Qed.

Lemma insert_Permutation_delete {A} (l : list A) i x :
  (i < length l)%nat → <[i:=x]> l ≡ₚ x :: delete i l.
Proof.
  revert i. induction l as [|y l IH]; intros [|i] Hi; simpl in *; try lia; [done|].
  rewrite IH by lia. apply perm_swap.
Qed.

Lemma exchange_Permutation {A} (i j : nat) (l : list A) : exchange i j l ≡ₚ l.
Proof.
  unfold exchange. destruct (l !! i) as [a|] eqn:Ha; [|done].
  destruct (l !! j) as [b|] eqn:Hb; [|done].
  assert (Hi : (i < length l)%nat) by (by apply lookup_lt_Some in Ha).
  assert (Hj : (j < length l)%nat) by (by apply lookup_lt_Some in Hb).
  destruct (decide (i = j)) as [->|Hne].
  - simplify_eq. rewrite list_insert_insert_eq. by rewrite list_insert_id.
  - set (l' := <[j:=a]> l).
    assert (Hi' : l' !! i = Some a) by (unfold l'; by rewrite list_lookup_insert_ne).
    assert (Hrest : delete i l' ≡ₚ delete j l).
    { apply (Permutation_cons_inv (a := a)).
      rewrite <- (delete_Permutation l' i a Hi'). by apply insert_Permutation_delete. }
    rewrite insert_Permutation_delete by (unfold l'; by rewrite length_insert).
    rewrite Hrest. symmetry. by apply delete_Permutation.
Qed.

Lemma foldl_ext_in {A B} (f g : A → B → A) (l : list B) (a : A) :
  (∀ x b, b ∈ l → f x b = g x b) → foldl f a l = foldl g a l.
Proof.
  revert a. induction l as [|b l IH]; intros a Hfg; [done|]. simpl.
  rewrite Hfg by left. apply IH. intros x b' Hb'. apply Hfg. by right.
Qed.

Lemma foldl_exchange_Permutation {A} (pick : nat → nat) (idxs : list nat) (l : list A) :
  foldl (λ acc i, exchange i (pick i) acc) l idxs ≡ₚ l.
Proof.
  revert l. induction idxs as [|i idxs IH]; intros l; [done|]. simpl.
  rewrite IH. apply exchange_Permutation.
Qed.

Lemma reverse_seq_S i : reverse (seq 1 (S i)) = S i :: reverse (seq 1 i).
Proof. by rewrite seq_S, reverse_app. Qed.

Lemma shuffle_from_spec {A} i : ∀ (options : list A) s,
  (i < length options ∨ i = 0)%nat →
  shuffle_from i options s
  = Ret (foldl (λ acc i', exchange i' (floor_mul (random s (draws s + (i - i'))) (i' + 1)) acc)
               options (reverse (seq 1 i)))
        (set_draws (draws s + i) s).
Proof.
  induction i as [|i IH]; intros options s Hi.
  - simpl. unfold ret. destruct s; simpl. unfold set_draws; simpl. by rewrite Nat.add_0_r.
  - assert (Hlt : (S i < length options)%nat) by lia.
    cbn [shuffle_from]. unfold bind. rewrite random_index_run.
    set (j := floor_mul (random s (draws s)) (S i + 1)).
    assert (Hj : (j < S i + 1)%nat) by (apply floor_mul_lt; lia).
    rewrite swap_exchange by lia.
    rewrite IH by (rewrite exchange_length; lia).
    rewrite reverse_seq_S. cbn [foldl]. rewrite Nat.sub_diag, Nat.add_0_r. fold j.
    f_equal.
    + apply foldl_ext_in. intros x i' Hi'.
      apply elem_of_reverse, elem_of_seq in Hi'. simpl.
      do 3 f_equal. lia.
    + unfold set_draws; simpl. f_equal. lia.
Qed.

Lemma shuffle_runs {A} (options : list A) s :
  shuffle options s
  = Ret (fisher_yates A (drawn_index s (length options - 1)) options)
        (set_draws (draws s + (length options - 1)) s) ∧
  fisher_yates A (drawn_index s (length options - 1)) options ≡ₚ options.
Proof.
  split.
  - unfold shuffle, fisher_yates. apply shuffle_from_spec. lia.
  - apply foldl_exchange_Permutation.
Qed.

(** C4. The shuffle of the option list is Fisher–Yates: it returns what
    "for index i from last down to 1, swap element i with the element at a
    random index of [0, i]" returns, the index for position [i] being
    [Math.floor(Math.random() * (i + 1))], which lies in [0, i]; over [d *
    (i + 1)] equally spaced values of [Math.random()] every index of [0, i]
    is drawn by exactly [d] of them; and the result is a permutation of the
    list. *)
Theorem shuffle_fisher_yates {A} (options : list A) s :
  shuffle options s
  = Ret (fisher_yates A (drawn_index s (length options - 1)) options)
        (set_draws (draws s + (length options - 1)) s) ∧
  (∀ i, (drawn_index s (length options - 1) i ≤ i)%nat) ∧
  (∀ d i j, (0 < d)%nat → (j ≤ i)%nat →
     length (filter (λ r, floor_mul r (i + 1) = j) (grid d (i + 1))) = d) ∧
  fisher_yates A (drawn_index s (length options - 1)) options ≡ₚ options.
Proof.
  split; [|split; [|split]].
  - unfold shuffle, fisher_yates. apply shuffle_from_spec. lia.
  - intros i. unfold drawn_index.
    pose proof (floor_mul_lt (random s (draws s + (length options - 1 - i))) (i + 1)). lia.
  - intros d i j. apply random_index_uniform.
  - apply foldl_exchange_Permutation.
Qed.

Lemma shuffle_fisher_yates_witness :
  shuffle three_options fallback_state
  = Ret (fisher_yates QuizOption (drawn_index fallback_state 2) three_options)
        (set_draws (draws fallback_state + 2) fallback_state) ∧
  (drawn_index fallback_state 2 2 ≤ 2)%nat ∧
  length (filter (λ r, floor_mul r 3 = 1%nat) (grid 2 3)) = 2%nat ∧
  fisher_yates QuizOption (drawn_index fallback_state 2) three_options ≡ₚ three_options.
Proof.
  destruct (shuffle_fisher_yates three_options fallback_state)
    as (Hrun & Hrange & Huniform & Hperm).
  split; [exact Hrun|]. split; [exact (Hrange 2%nat)|]. split; [|exact Hperm].
  apply (Huniform 2%nat 2%nat 1%nat); lia.
Defined.

(** ** Random pick and the quiz builder *)

Lemma getWordsCount_ok s this rs :
  wordManager s = Some this → heap s !! words this = Some (CArray rs) →
  getWordsCount s = Ret (length rs) s.
Proof.
  intros Hthis Hrs. unfold getWordsCount, bind.
  by rewrite (this_words_ok _ _ Hthis), (array_get_ok _ _ _ Hrs).
Qed.

Lemma getRandomWord_spec s this rs ws :
  wordManager s = Some this → heap s !! words this = Some (CArray rs) →
  pointed (heap s) rs ws →
  (ws ≠ [] → ∃ r w, getRandomWord s = Ret (Obj r) (set_draws (S (draws s)) s) ∧
                    r ∈ rs ∧ heap s !! r = Some (CWord w) ∧ w ∈ ws) ∧
  (ws = [] → getRandomWord s = Ret Null s).
Proof.
  intros Hthis Hrs Hpt. pose proof (pointed_length _ _ _ Hpt) as Hlen.
  unfold getRandomWord, bind. rewrite (this_words_ok _ _ Hthis), (array_get_ok _ _ _ Hrs).
  split.
  - intros Hne. destruct (Nat.eqb_spec (length rs) 0) as [H0|H0].
    { destruct ws; [done|]. simpl in Hlen. lia. }
    rewrite random_index_run. unfold ret.
    set (k := floor_mul _ _).
    assert (Hk : (k < length rs)%nat) by (apply floor_mul_lt; lia).
    destruct (lookup_lt_is_Some_2 _ _ Hk) as [r Hr].
    destruct (pointed_lookup _ _ _ _ _ Hpt Hr) as (w & Hw & Hrw).
    exists r, w. unfold index. rewrite Hr. split; [done|].
    split; [by eapply list_elem_of_lookup_2|]. split; [done|].
    by eapply list_elem_of_lookup_2.
  - intros ->. destruct rs; [done|]. simpl in Hlen. lia.
Qed.

(** C7. On a non-empty collection [getRandomWord] returns a reference to a
    Word of the collection, neither [null] nor [undefined]; on the empty
    collection it returns [null]. *)
Theorem getRandomWord_some_or_null s ws :
  store s = Some ws →
  (ws ≠ [] → ∃ r w s', getRandomWord s = Ret (Obj r) s' ∧
                       word_at (heap s) r = Some w ∧ w ∈ ws) ∧
  (ws = [] → getRandomWord s = Ret Null s).
Proof.
  intros Hstore. apply store_Some in Hstore as (this & rs & Hthis & Hrs & Hpt).
  destruct (getRandomWord_spec s this rs ws Hthis Hrs Hpt) as [Hsome Hnull].
  split; [|done]. intros Hne. destruct (Hsome Hne) as (r & w & Hrun & _ & Hw & Hin).
  exists r, w, (set_draws (S (draws s)) s). split; [done|]. split; [|done].
  by apply word_at_Some.
Qed.

Lemma getRandomWord_some_or_null_witness :
  store fallback_state = Some defaultWords ∧
  (defaultWords ≠ [] →
   ∃ r w s', getRandomWord fallback_state = Ret (Obj r) s' ∧
             word_at (heap fallback_state) r = Some w ∧ w ∈ defaultWords) ∧
  (defaultWords = [] → getRandomWord fallback_state = Ret Null fallback_state).
Proof.
  assert (Hstore : store fallback_state = Some defaultWords) by (vm_compute; reflexivity).
  split; [exact Hstore|].
  exact (getRandomWord_some_or_null fallback_state defaultWords Hstore).
Defined.

Lemma candidates_length excludeId ws : (length (candidates excludeId ws) ≤ length ws)%nat.
Proof. apply length_filter. Qed.

Lemma sampler_runs p fuel excludeId count s ws :
  store s = Some ws → (length ws ≤ fuel)%nat →
  ∃ vs s', sampler p fuel excludeId count s = Ret vs s' ∧ store s' = Some ws ∧
           preserves_heap s s' ∧ same_session s s'.
Proof.
  intros Hstore Hfuel. rewrite sampler_sample.
  destruct (sample_spec (project p) excludeId count s ws Hstore)
    as (vs & s' & rest & n & Hrun & _ & Hsess & Hheap & _ & Hn & _).
  pose proof (candidates_length excludeId ws).
  assert (Hpres : preserves_heap s s') by (by eapply preserves_heap_fresh).
  exists vs, s'. split; [apply Hrun; lia|]. split; [|done].
  destruct Hsess as (Hm & _). by apply (preserves_heap_store s s').
Qed.

Lemma quiz_switch_runs fuel questionType targetWord tw s ws :
  store s = Some ws → (length ws ≤ fuel)%nat →
  heap s !! targetWord = Some (CWord tw) →
  ∃ questionText correctAnswer wrongAnswers s',
    quiz_switch fuel questionType targetWord s
    = Ret (questionText, correctAnswer, wrongAnswers) s'.
Proof.
  intros Hstore Hfuel Htw. unfold quiz_switch.
  repeat case_decide.
  - destruct (sampler_runs Meaning fuel (JapaneseWord.id tw) 3 s ws Hstore Hfuel)
      as (vs & s' & Hrun & _).
    unfold bind. rewrite (deref_ok _ _ _ Htw). simpl in Hrun. rewrite Hrun. unfold ret. eauto.
  - destruct (sampler_runs Reading fuel (JapaneseWord.id tw) 3 s ws Hstore Hfuel)
      as (vs & s' & Hrun & _).
    unfold bind. rewrite (deref_ok _ _ _ Htw). simpl in Hrun. rewrite Hrun. unfold ret. eauto.
  - destruct (sampler_runs WrittenForm fuel (JapaneseWord.id tw) 3 s ws Hstore Hfuel)
      as (vs & s' & Hrun & _).
    unfold bind. rewrite (deref_ok _ _ _ Htw). simpl in Hrun. rewrite Hrun. unfold ret. eauto.
  - unfold ret. eauto.
Qed.

Lemma one_correct_option correctAnswer wrongAnswers (options : list QuizOption) :
  options ≡ₚ make_options correctAnswer wrongAnswers →
  filter (λ o, isCorrect o = true) options = [mkOption correctAnswer true].
Proof.
  intros Hperm. apply Permutation_singleton_r.
  rewrite Hperm. unfold make_options. rewrite filter_cons_True by done.
  apply Permutation_cons; [done|]. clear Hperm.
  induction wrongAnswers as [|a l IH]; [done|]. simpl.
  rewrite filter_cons_False; [exact IH|]. simpl. congruence.
Qed.

(** C1. On a non-empty store [generateQuizQuestion] returns a question
    whose option list has exactly one option with [isCorrect = true], and
    the text of that option is the question's [correctAnswer]. *)
Theorem generateQuizQuestion_one_correct fuel s ws :
  store s = Some ws →
  ws ≠ [] →
  (length ws ≤ fuel)%nat →
  ∃ q s' o,
    generateQuizQuestion fuel s = Ret (Some q) s' ∧
    filter (λ o, isCorrect o = true) (QuizQuestion.options q) = [o] ∧
    text o = QuizQuestion.correctAnswer q.
Proof.
  intros Hstore Hne Hfuel.
  pose proof Hstore as Hstore0.
  apply store_Some in Hstore as (this & rs & Hthis & Hrs & Hpt).
  destruct (getRandomWord_spec s this rs ws Hthis Hrs Hpt) as [Hsome _].
  destruct (Hsome Hne) as (r & tw & Hpick & _ & Htw & _).
  set (s1 := set_draws (S (draws s)) s) in *.
  set (s2 := set_draws (S (draws s1)) s1).
  set (k := floor_mul (random s1 (draws s1)) (length questionTypes)).
  destruct (quiz_switch_runs fuel (questionTypes !! k) r tw s2 ws)
    as (questionText & correctAnswer & wrongAnswers & s3 & Hswitch); [done..|].
  destruct (shuffle_runs (make_options correctAnswer wrongAnswers) s3)
    as (Hshuffle & Hperm).
  eexists _, _, (mkOption correctAnswer true). split.
  - unfold generateQuizQuestion, bind, get_state. rewrite Hthis.
    rewrite (getWordsCount_ok _ _ _ Hthis Hrs).
    destruct (Nat.eqb_spec (length rs) 0) as [H0|_].
    { pose proof (pointed_length _ _ _ Hpt). destruct ws; [done|]. simpl in *. lia. }
    unfold getRandomWordForQuiz. rewrite Hpick. rewrite random_index_run.
    fold k. fold s2. rewrite Hswitch. rewrite Hshuffle. reflexivity.
  - simpl. split; [|done]. by apply (one_correct_option correctAnswer wrongAnswers).
Qed.

Lemma generateQuizQuestion_one_correct_witness :
  store fallback_state = Some defaultWords ∧
  defaultWords ≠ [] ∧
  (length defaultWords ≤ 3)%nat ∧
  ∃ q s' o,
    generateQuizQuestion 3 fallback_state = Ret (Some q) s' ∧
    filter (λ o, isCorrect o = true) (QuizQuestion.options q) = [o] ∧
    text o = QuizQuestion.correctAnswer q.
Proof.
  assert (Hstore : store fallback_state = Some defaultWords) by (vm_compute; reflexivity).
  assert (Hne : defaultWords ≠ []) by discriminate.
  assert (Hfuel : (length defaultWords ≤ 3)%nat) by (vm_compute; lia).
  split; [exact Hstore|]. split; [exact Hne|]. split; [exact Hfuel|].
  exact (generateQuizQuestion_one_correct 3 fallback_state defaultWords Hstore Hne Hfuel).
Defined.

(** ** Loading *)

Lemma alloc_run c s :
  alloc c s = Ret (fresh (dom (heap s))) (set_heap (<[fresh (dom (heap s)):=c]> (heap s)) s).
Proof. reflexivity. Qed.

Lemma preserves_heap_trans s1 s2 s3 :
  preserves_heap s1 s2 → preserves_heap s2 s3 → preserves_heap s1 s3.
Proof. intros H1 H2 l c Hl. by apply H2, H1. Qed.

Lemma pointed_preserved s s' rs ws :
  preserves_heap s s' → pointed (heap s) rs ws → pointed (heap s') rs ws.
Proof. intros Hp Hpt. eapply Forall2_impl; [exact Hpt|]. intros r w Hr. by apply Hp. Qed.

Lemma alloc_words_spec ws : ∀ s,
  ∃ rs s', alloc_words ws s = Ret rs s' ∧ pointed (heap s') rs ws ∧
           preserves_heap s s' ∧ same_but_heap s s'.
Proof.
  induction ws as [|w ws IH]; intros s.
  - exists [], s. split; [done|]. split; [constructor|]. split; [by intros ??|done].
  - cbn [alloc_words]. unfold bind. rewrite alloc_run.
    set (r := fresh (dom (heap s))).
    set (s1 := set_heap (<[r:=CWord w]> (heap s)) s).
    destruct (IH s1) as (rs & s' & Hrun & Hpt & Hpres & Hsame).
    rewrite Hrun. exists (r :: rs), s'. split; [done|].
    split. { constructor; [|done]. apply Hpres. simpl. by rewrite lookup_insert_eq. }
    split. { eapply preserves_heap_trans; [|exact Hpres]. by eapply preserves_heap_fresh. }
    done.
Qed.

Lemma set_this_words_ok a s this :
  wordManager s = Some this →
  set_this_words a s = Ret tt (set_wordManager (Some (mkManager a (currentWord this))) s).
Proof. intros H. unfold set_this_words. by rewrite H. Qed.

Lemma loadDefaultWords_spec s this :
  wordManager s = Some this →
  ∃ s', loadDefaultWords s = Ret tt s' ∧ store s' = Some defaultWords ∧
        preserves_heap s s' ∧ ui s' = ui s ∧ draws s' = draws s.
Proof.
  intros Hthis. destruct (alloc_words_spec defaultWords s)
    as (rs & s1 & Hrun & Hpt & Hpres & Hm & _ & Hui & Hdraws).
  unfold loadDefaultWords, bind. rewrite Hrun, alloc_run.
  set (a := fresh (dom (heap s1))).
  set (s2 := set_heap (<[a:=CArray rs]> (heap s1)) s1).
  rewrite (set_this_words_ok a s2 this) by (simpl; congruence).
  eexists. split; [done|]. split.
  - apply store_Some. exists (mkManager a (currentWord this)), rs. simpl.
    split; [done|]. split; [by rewrite lookup_insert_eq|]. by apply pointed_fresh.
  - split; [|done]. eapply preserves_heap_trans; [exact Hpres|].
    by eapply (preserves_heap_fresh s1 (set_wordManager _ s2)).
Qed.

Section LoadFacts.
Variable JSON_parse : string → option Parsed.

(** Pushing the words of one level. *)
Lemma push_level_spec level levelWords : ∀ s a cw acc accw,
  wordManager s = Some (mkManager a cw) →
  heap s !! a = Some (CArray acc) →
  pointed (heap s) acc accw →
  ∃ s' acc',
    forEach levelWords (λ word,
      wordWithLevel <- alloc (CWord (with_level word level)) ;;
      push_word wordWithLevel) s = Ret tt s' ∧
    same_but_heap s s' ∧
    heap s' !! a = Some (CArray acc') ∧
    pointed (heap s') acc' (accw ++ ((λ word, with_level word level) <$> levelWords)) ∧
    (∀ l c, l ≠ a → heap s !! l = Some c → heap s' !! l = Some c).
Proof.
  induction levelWords as [|word levelWords IH]; intros s a cw acc accw Hthis Ha Hpt.
  - exists s, acc. split; [done|]. split; [done|]. split; [done|].
    split; [by rewrite app_nil_r|done].
  - cbn [forEach]. unfold bind at 1 2. rewrite alloc_run.
    set (r := fresh (dom (heap s))).
    set (s1 := set_heap (<[r:=CWord (with_level word level)]> (heap s)) s).
    assert (Hra : a ≠ r) by (by eapply fresh_lookup_ne).
    assert (Ha1 : heap s1 !! a = Some (CArray acc)) by (simpl; by rewrite lookup_insert_ne).
    assert (Hpush : push_word r s1
                    = Ret tt (set_heap (<[a:=CArray (push acc r)]> (heap s1)) s1)).
    { unfold push_word, bind. rewrite (this_words_ok s1 (mkManager a cw)) by done. simpl words.
      rewrite (array_get_ok _ _ _ Ha1). by rewrite (array_set_ok a acc _ s1). }
    rewrite Hpush.
    set (s2 := set_heap (<[a:=CArray (push acc r)]> (heap s1)) s1).
    destruct (IH s2 a cw (push acc r) (accw ++ [with_level word level])%list)
      as (s' & acc' & Hrun & Hsame & Ha' & Hpt' & Hframe).
    { done. }
    { simpl. by rewrite lookup_insert_eq. }
    { simpl. eapply pointed_insert_array; [exact Ha1|]. simpl.
      apply Forall2_app.
      - by apply pointed_fresh.
      - constructor; [|constructor]. by rewrite lookup_insert_eq. }
    exists s', acc'. split; [done|]. split; [done|]. split; [done|].
    split; [by rewrite fmap_cons, cons_middle, app_assoc|].
    intros l c Hla Hl. apply Hframe; [done|]. simpl.
    rewrite lookup_insert_ne by done. rewrite lookup_insert_ne; [done|].
    intros <-. by eapply (fresh_lookup_ne (heap s)).
Qed.

(** Pushing the entries of [data]: every Word is pushed when every value is
    an array; otherwise the Words of the entries before the first value that
    is not an array are pushed, and a [TypeError] is thrown. *)
Lemma push_entries_spec (entries : list (string * LevelValue)) : ∀ s a cw acc accw,
  wordManager s = Some (mkManager a cw) →
  heap s !! a = Some (CArray acc) →
  pointed (heap s) acc accw →
  ∃ s' acc' accw',
    (if forallb (λ entry, is_words entry.2) entries
     then forEach entries (λ '(level, levelWords),
            forEach_level levelWords (λ word,
              wordWithLevel <- alloc (CWord (with_level word level)) ;;
              push_word wordWithLevel)) s = Ret tt s' ∧
          accw' = (accw ++ loaded_words entries)%list
     else forEach entries (λ '(level, levelWords),
            forEach_level levelWords (λ word,
              wordWithLevel <- alloc (CWord (with_level word level)) ;;
              push_word wordWithLevel)) s = Throw TypeError s') ∧
    same_but_heap s s' ∧
    heap s' !! a = Some (CArray acc') ∧
    pointed (heap s') acc' accw' ∧
    (∀ l c, l ≠ a → heap s !! l = Some c → heap s' !! l = Some c).
Proof.
  induction entries as [|[level [|levelWords]] entries IH]; intros s a cw acc accw Hthis Ha Hpt.
  - exists s, acc, accw. cbn [forallb forEach]. unfold loaded_words. cbn [mbind list_bind].
    rewrite app_nil_r. done.
  - exists s, acc, accw. split; [reflexivity|]. split; [done|]. split; [done|]. split; done.
  - cbn [forEach forallb is_words snd andb forEach_level].
    destruct (push_level_spec level levelWords s a cw acc accw Hthis Ha Hpt)
      as (s1 & acc1 & Hrun1 & Hsame1 & Ha1 & Hpt1 & Hframe1).
    rewrite !(bind_Ret _ _ _ _ _ Hrun1).
    destruct (IH s1 a cw acc1 (accw ++ ((λ word, with_level word level) <$> levelWords))%list)
      as (s' & acc' & accw' & Hrun & Hsame & Ha' & Hpt' & Hframe); [|done..|].
    { destruct Hsame1 as (-> & _). done. }
    exists s', acc', accw'. split.
    { destruct (forallb _ entries); [|done]. destruct Hrun as (Hrun & ->).
      split; [done|]. unfold loaded_words. by rewrite bind_cons, app_assoc. }
    split. { destruct Hsame1 as (?&?&?&?), Hsame as (?&?&?&?). repeat split; congruence. }
    split; [done|]. split; [done|]. intros l c Hla Hl. by apply Hframe, Hframe1.
Qed.

(** What the [try] block does when the request settles: it returns when the
    load does not fail and throws when it does; in both cases it leaves the
    current word, the existing objects, the random source and the user
    interface as they were. *)
Lemma load_try_spec net s this :
  wordManager s = Some this →
  settles net = true →
  ∃ s1 a,
    (if load_fails JSON_parse net
     then ∃ e, loadVocabularyData_try JSON_parse net s = Throw e s1
     else loadVocabularyData_try JSON_parse net s = Ret tt s1 ∧
          heap s !! a = None ∧
          ∃ chunks entries,
            net = Response 200 chunks ∧
            JSON_parse (concat_chunks chunks) = Some (ParsedValue true (Entries entries)) ∧
            forallb (λ entry, is_words entry.2) entries = true ∧
            store s1 = Some (loaded_words entries)) ∧
    wordManager s1 = Some (mkManager a (currentWord this)) ∧
    preserves_heap s s1 ∧ random s1 = random s ∧ draws s1 = draws s ∧ ui s1 = ui s.
Proof.
  intros Hthis Hsettles.
  assert (Hsame : wordManager s = Some (mkManager (words this) (currentWord this)) ∧
                  preserves_heap s s ∧ random s = random s ∧ draws s = draws s ∧ ui s = ui s).
  { split; [by destruct this|]. split; [by intros ??|done]. }
  unfold load_fails, loadVocabularyData_try, makeApiRequest, bind.
  destruct net as [why| |statusCode chunks|statusCode chunks]; [| | |done].
  { exists s, (words this). split; [by eexists|done]. }
  { exists s, (words this). split; [by eexists|done]. }
  destruct (statusCode =? 200)%Z eqn:Hcode;
    [|exists s, (words this); split; [by eexists|done]].
  apply Z.eqb_eq in Hcode as ->. unfold ret.
  destruct (JSON_parse (concat_chunks chunks)) as [[|success data]|] eqn:Hparse;
    [exists s, (words this); split; [by eexists|done]| |
     exists s, (words this); split; [by eexists|done]].
  cbn [get_success]. unfold ret.
  destruct success; [|exists s, (words this); split; [by eexists|done]].
  rewrite alloc_run.
  set (a := fresh (dom (heap s))).
  set (s1 := set_heap (<[a:=CArray []]> (heap s)) s).
  set (s2 := set_wordManager (Some (mkManager a (currentWord this))) s1).
  rewrite (set_this_words_ok a s1 this) by done. fold s2.
  assert (Hfresh : heap s !! a = None) by apply not_elem_of_dom, is_fresh.
  assert (Hpres : preserves_heap s s2).
  { intros l c Hl. simpl. rewrite lookup_insert_ne; [done|]. intros <-. congruence. }
  destruct data as [|entries]; cbn [Object_entries_data well_shaped andb negb].
  { exists s2, a. split; [by eexists|]. done. }
  unfold ret.
  destruct (push_entries_spec entries s2 a (currentWord this) [] [])
    as (s' & acc' & accw' & Hrun & (Hm & Hr & Hui & Hd) & Ha' & Hpt' & Hframe);
    [done|by simpl; rewrite lookup_insert_eq|constructor|].
  exists s', a. split.
  - destruct (forallb _ entries) eqn:Hall; cbn [negb].
    + destruct Hrun as (Hrun & ->). split; [done|]. split; [done|].
      exists chunks, entries. split; [done|]. split; [done|]. split; [done|].
      apply store_Some. exists (mkManager a (currentWord this)), acc'.
      split; [by rewrite Hm|]. done.
    + by eexists.
  - split; [by rewrite Hm|]. split.
    { intros l c Hl. apply Hframe; [intros ->; congruence|by apply Hpres]. }
    by rewrite Hr, Hd, Hui.
Qed.

(** A successful load stores the words of the response, level by level. *)
Lemma load_success net s this :
  wordManager s = Some this →
  settles net = true →
  load_fails JSON_parse net = false →
  ∃ entries s',
    loadVocabularyData_try JSON_parse net s = Ret tt s' ∧
    store s' = Some (loaded_words entries) ∧ ui s' = ui s.
Proof.
  intros Hthis Hsettles Hok.
  destruct (load_try_spec net s this Hthis Hsettles) as (s1 & a & Hrun & _ & _ & _ & _ & Hui).
  rewrite Hok in Hrun. destruct Hrun as (Hrun & _ & chunks & entries & _ & _ & _ & Hstore).
  by exists entries, s1.
Qed.

(** The [try] block throws exactly in the cases of [load_fails]. *)
Lemma load_throws_iff net s this :
  wordManager s = Some this →
  (∃ e s1, loadVocabularyData_try JSON_parse net s = Throw e s1) ↔
  load_fails JSON_parse net = true.
Proof.
  intros Hthis. destruct (settles net) eqn:Hsettles.
  - destruct (load_try_spec net s this Hthis Hsettles) as (s1 & a & Hrun & _).
    destruct (load_fails JSON_parse net).
    + destruct Hrun as (e & Hrun). split; [done|]. intros _. by exists e, s1.
    + destruct Hrun as (Hrun & _). split; [|done]. intros (e & s1' & Hthrow). congruence.
  - destruct net; try done. split; [|done]. by intros (e & s1 & Hthrow).
Qed.

(** X16. Every load that fails by an exception falls back: when the [try]
    block of [loadVocabularyData] throws, the cause is one of those listed
    by [load_fails], a rejected request (network error, timeout, status
    other than 200), a body that does not parse or is [null], a [success]
    that is not truthy, a [data] that is missing or holds something that is
    not an array (each of which makes it throw, by [load_throws_iff]); the
    method still returns normally, whatever the [try] block had pushed is
    replaced, the collection is the three default Words, which are well
    formed and have distinct ids, [getWordsCount] returns 3, and the user
    has been shown exactly one message, the fallback notice. *)
Theorem load_failure_falls_back net s this :
  wordManager s = Some this →
  (∃ e s1, loadVocabularyData_try JSON_parse net s = Throw e s1) →
  load_fails JSON_parse net = true ∧
  ∃ s',
    loadVocabularyData JSON_parse net s = Ret tt s' ∧
    store s' = Some defaultWords ∧
    length defaultWords = 3%nat ∧
    forallb well_formed defaultWords = true ∧
    NoDup (JapaneseWord.id <$> defaultWords) ∧
    getWordsCount s' = Ret 3%nat s' ∧
    ui s' = (ui s ++ [ShowErrorMessage fallback_message])%list.
Proof.
  intros Hthis Hthrow.
  pose proof (proj1 (load_throws_iff net s this Hthis) Hthrow) as Hf.
  split; [done|]. clear Hthrow.
  assert (Hsettles : settles net = true) by (by destruct net).
  destruct (load_try_spec net s this Hthis Hsettles)
    as (s1 & a & Hthrow & Hm1 & _ & _ & _ & Hui1).
  rewrite Hf in Hthrow. destruct Hthrow as (e & Hthrow).
  set (s2 := set_ui (ui s1 ++ [ShowErrorMessage fallback_message])%list s1).
  destruct (loadDefaultWords_spec s2 _ Hm1) as (s' & Hrun & Hstore & _ & Hui & _).
  exists s'. split.
  { unfold loadVocabularyData, try_catch. rewrite Hthrow. unfold bind, show.
    fold fallback_message. fold s2. by rewrite Hrun. }
  split; [done|]. split; [done|]. split; [done|].
  split. { apply NoDup_ListNoDup. repeat constructor; simpl; intuition congruence. }
  split; [|by rewrite Hui; simpl; rewrite Hui1].
  apply store_Some in Hstore as (this' & rs & Hthis' & Hrs & Hpt).
  rewrite (getWordsCount_ok _ _ _ Hthis' Hrs). by rewrite (pointed_length _ _ _ Hpt).
Qed.

(** A response that is cut after its headers: the promise of
    [makeApiRequest] stays pending, the [await] of [loadVocabularyData]
    never resumes, neither the [try] block nor the [catch] block goes on,
    and the session stays as it was. *)
Lemma load_cut_pending statusCode chunks s :
  loadVocabularyData JSON_parse (ResponseCut statusCode chunks) s = Pending s.
Proof. reflexivity. Qed.
End LoadFacts.

Lemma load_failure_falls_back_witness :
  wordManager empty_state = Some (mkManager 0%nat Null) ∧
  (∃ e s1, loadVocabularyData_try refused_response (Response 200 ["{}"]) empty_state
           = Throw e s1) ∧
  load_fails refused_response (Response 200 ["{}"]) = true ∧
  ∃ s',
    loadVocabularyData refused_response (Response 200 ["{}"]) empty_state = Ret tt s' ∧
    store s' = Some defaultWords ∧
    length defaultWords = 3%nat ∧
    forallb well_formed defaultWords = true ∧
    NoDup (JapaneseWord.id <$> defaultWords) ∧
    getWordsCount s' = Ret 3%nat s' ∧
    ui s' = (ui empty_state ++ [ShowErrorMessage fallback_message])%list.
Proof.
  assert (Hthis : wordManager empty_state = Some (mkManager 0%nat Null))
    by (vm_compute; reflexivity).
  assert (Hthrow : ∃ e s1,
            loadVocabularyData_try refused_response (Response 200 ["{}"]) empty_state
            = Throw e s1)
    by (eexists _, _; vm_compute; reflexivity).
  split; [exact Hthis|]. split; [exact Hthrow|].
  exact (load_failure_falls_back refused_response (Response 200 ["{}"]) empty_state
           (mkManager 0%nat Null) Hthis Hthrow).
Defined.

(** C6. The fallback is missed on one network error.  On a response that
    is cut after its headers (status 200, a first chunk, then the connection
    is closed) [loadVocabularyData] neither returns nor throws: it stays
    pending at its [await], with the session as it was.  Run in the session
    that activation has just created, it leaves the collection empty
    ([getWordsCount] is 0, not 3) and shows no message; [activate] itself
    stays pending before the first update of the status bar.  The failures
    that reach the [catch] block do fall back. *)
Theorem load_cut_response_no_fallback :
  loadVocabularyData twin_response cut_response empty_state = Pending empty_state ∧
  store empty_state = Some [] ∧
  getWordsCount empty_state = Ret 0%nat empty_state ∧
  ui empty_state = [] ∧
  activate twin_response cut_response (initial_state (λ n, frac n 6)) = Pending empty_state.
Proof. repeat split; vm_compute; reflexivity. Qed.

(** ** The example-sentence quiz *)

Lemma has_examples_inv tw :
  has_examples tw = true → ∃ exs, JapaneseWord.examples tw = Some exs ∧ (0 < length exs)%nat.
Proof.
  unfold has_examples. destruct (JapaneseWord.examples tw) as [exs|]; [|done].
  intros H. apply Nat.ltb_lt in H. eauto.
Qed.

Lemma string_app_assoc (a b c : string) : (a ++ b) ++ c = a ++ (b ++ c).
Proof.
  induction a as [|x a IH]; [done|].
  change (String x ((a ++ b) ++ c) = String x (a ++ (b ++ c))). by f_equal.
Qed.

Lemma example_prompt_embeds japanese ex :
  ∃ before between,
    example_prompt japanese ex
    = before ++ Example.japanese ex ++ between ++ Example.chinese ex.
Proof.
  unfold example_prompt.
  exists ("以下例句中的「" ++ to_string japanese ++ "」是什麼意思？

例句："), "
".
  rewrite !string_app_assoc. reflexivity.
Qed.

Lemma exampleQuizQuestion_spec fuel s ws :
  store s = Some ws →
  (length ws ≤ fuel)%nat →
  (filter (λ w, has_examples w = true) ws = [] →
     ∃ s' msg, exampleQuizQuestion fuel s = Ret None s' ∧
               ui s' = (ui s ++ [msg])%list ∧
               msg = (if decide (ws = []) then ShowWarningMessage not_loaded_message
                      else ShowInformationMessage no_examples_message)) ∧
  (filter (λ w, has_examples w = true) ws ≠ [] →
     ∃ q s' tw exs,
       exampleQuizQuestion fuel s = Ret (Some q) s' ∧
       ui s' = ui s ∧
       word_at (heap s) (ExampleQuiz.targetWord q) = Some tw ∧
       tw ∈ ws ∧
       JapaneseWord.examples tw = Some exs ∧
       ExampleQuiz.randomExample q ∈ exs ∧
       ExampleQuiz.correctAnswer q = first_meaning tw ∧
       ExampleQuiz.questionText q
       = example_prompt (first_written tw) (ExampleQuiz.randomExample q) ∧
       ∃ before between,
         ExampleQuiz.questionText q
         = before ++ Example.japanese (ExampleQuiz.randomExample q)
             ++ between ++ Example.chinese (ExampleQuiz.randomExample q)).
Proof.
  intros Hstore Hfuel.
  pose proof Hstore as Hstore0.
  apply store_Some in Hstore as (this & rs & Hthis & Hrs & Hpt).
  pose proof (pointed_length _ _ _ Hpt) as Hlen.
  (* the first guard *)
  assert (Hstart : ∀ k : bool → M (option ExampleQuiz.t),
            (s0 <- get_state ;;
             unloaded <- match wordManager s0 with
                         | None => ret true
                         | Some _ => n <- getWordsCount ;; ret (n =? 0)%nat
                         end ;;
             k unloaded) s = k (length rs =? 0)%nat s).
  { intros k. unfold bind, get_state. rewrite Hthis.
    by rewrite (getWordsCount_ok _ _ _ Hthis Hrs). }
  unfold exampleQuizQuestion. rewrite Hstart. clear Hstart.
  destruct (Nat.eqb_spec (length rs) 0) as [H0|H0].
  { (* empty store *)
    assert (ws = []) as -> by (destruct ws; [done|simpl in Hlen; lia]).
    split; [|done]. intros _. eexists _, _. split; [reflexivity|]. split; [reflexivity|].
    by rewrite decide_True. }
  assert (Hws : ws ≠ []) by (intros ->; simpl in Hlen; lia).
  (* getWordsWithExamples *)
  destruct (array_filter_spec has_examples (λ w, has_examples w = true) s (words this) rs ws)
    as (kept & Hfilter & Hkept); [|done..|].
  { intros w. by destruct (has_examples w). }
  set (a := fresh (dom (heap s))) in *.
  set (s1 := set_heap (<[a:=CArray kept]> (heap s)) s) in *.
  assert (Hwwe : getWordsWithExamples s = Ret a s1).
  { unfold getWordsWithExamples, bind, get_state. by rewrite Hthis. }
  assert (Hget : array_get a s1 = Ret kept s1).
  { apply array_get_ok. simpl. by rewrite lookup_insert_eq. }
  pose proof (pointed_length _ _ _ Hkept) as Hklen.
  assert (Hwords : ∀ k : list loc → M (option ExampleQuiz.t),
            (wordsWithExamples <- getWordsWithExamples ;;
             wwe <- array_get wordsWithExamples ;;
             k wwe) s = k kept s1).
  { intros k. unfold bind. by rewrite Hwwe, Hget. }
  rewrite !Hwords. clear Hwords.
  split.
  - intros Hnone. rewrite Hnone in Hklen. destruct kept; [|done]. simpl.
    eexists _, _. split; [reflexivity|]. split; [reflexivity|]. by rewrite decide_False.
  - intros Hsome.
    assert (Hk0 : length kept ≠ 0%nat).
    { destruct (filter _ ws); [done|]. simpl in Hklen. lia. }
    set (k := floor_mul (random s1 (draws s1)) (length kept)).
    assert (Hk : (k < length kept)%nat) by (apply floor_mul_lt; lia).
    destruct (lookup_lt_is_Some_2 _ _ Hk) as [r Hr].
    destruct (pointed_lookup _ _ _ _ _ Hkept Hr) as (tw & Htwk & Htw).
    assert (Htwin : tw ∈ filter (λ w, has_examples w = true) ws)
      by (by eapply list_elem_of_lookup_2).
    apply list_elem_of_filter in Htwin as [Hhas Htwin].
    destruct (has_examples_inv tw Hhas) as (exs & Hexs & Hpos).
    set (s2 := set_draws (S (draws s1)) s1).
    set (s3 := set_draws (S (draws s2)) s2).
    set (k2 := floor_mul (random s2 (draws s2)) (length exs)).
    assert (Hk2 : (k2 < length exs)%nat) by (by apply floor_mul_lt).
    destruct (lookup_lt_is_Some_2 _ _ Hk2) as [ex Hex].
    assert (Hstore3 : store s3 = Some ws).
    { apply (preserves_heap_store s s3); [|done..]. by eapply (preserves_heap_fresh s s3). }
    destruct (sampler_runs Meaning fuel (JapaneseWord.id tw) 3 s3 ws Hstore3 Hfuel)
      as (vs & s4 & Hsample & _ & _ & (_ & _ & Hui4)).
    destruct (shuffle_runs (make_options (first_meaning tw) vs) s4)
      as (Hshuffle & _).
    eexists _, _, tw, exs. split.
    { destruct (Nat.eqb_spec (length kept) 0) as [|_]; [done|].
      unfold bind at 1. rewrite random_index_run. fold k. fold s2.
      unfold index. rewrite Hr. unfold bind.
      rewrite (deref_ok r tw s2) by (simpl; rewrite lookup_insert_ne; [done|];
                                     apply not_eq_sym; by eapply fresh_lookup_ne).
      unfold Math_random. fold s3. rewrite Hexs. simpl in Hsample. rewrite Hsample.
      rewrite Hshuffle. unfold index. fold k2. rewrite Hex. reflexivity. }
    simpl. split; [done|]. split; [by apply word_at_Some|]. split; [done|].
    split; [done|]. split; [by eapply list_elem_of_lookup_2|]. split; [done|].
    split; [done|]. apply example_prompt_embeds.
Qed.

Lemma showExampleQuiz_none fuel choice s s1 :
  exampleQuizQuestion fuel s = Ret None s1 → showExampleQuiz fuel choice s = Ret tt s1.
Proof. intros Hq. unfold showExampleQuiz, try_catch, bind. by rewrite Hq. Qed.

Lemma showExampleQuiz_some fuel choice s q s1 :
  exampleQuizQuestion fuel s = Ret (Some q) s1 →
  ∃ s' feedback,
    showExampleQuiz fuel choice s = Ret tt s' ∧
    ui s' = (ui s1 ++ ShowQuickPick (quick_pick_items (ExampleQuiz.options q))
                        (ExampleQuiz.questionText q) :: feedback)%list.
Proof.
  intros Hq. unfold showExampleQuiz, try_catch, bind. rewrite Hq. unfold show.
  destruct (choice ≫= _) as [selectedAnswer|].
  - destruct (isCorrect (answerData selectedAnswer)); eexists _, [_]; simpl;
      (split; [reflexivity|]); by rewrite <- app_assoc.
  - eexists _, []. split; [reflexivity|]. done.
Qed.

(** C8. The example-sentence quiz draws its target among the Words that have
    at least one example.  When no Word of the store has one it builds no
    question: [showExampleQuiz] returns after one message and shows no quick
    pick.  Otherwise it builds a question whose target is a Word of the
    store with examples, whose example is one of the target's, whose correct
    answer is the target's first meaning and whose prompt contains the two
    sentences of that example; [showExampleQuiz] shows that question. *)
Theorem example_quiz_question fuel s ws :
  store s = Some ws →
  (length ws ≤ fuel)%nat →
  (filter (λ w, has_examples w = true) ws = [] →
     ∃ s' msg,
       exampleQuizQuestion fuel s = Ret None s' ∧
       (∀ choice, showExampleQuiz fuel choice s = Ret tt s') ∧
       ui s' = (ui s ++ [msg])%list ∧
       msg = (if decide (ws = []) then ShowWarningMessage not_loaded_message
              else ShowInformationMessage no_examples_message)) ∧
  (filter (λ w, has_examples w = true) ws ≠ [] →
     ∃ q s' tw exs,
       exampleQuizQuestion fuel s = Ret (Some q) s' ∧
       (∀ choice, ∃ s'' feedback,
          showExampleQuiz fuel choice s = Ret tt s'' ∧
          ui s'' = (ui s ++ ShowQuickPick (quick_pick_items (ExampleQuiz.options q))
                              (ExampleQuiz.questionText q) :: feedback)%list) ∧
       word_at (heap s) (ExampleQuiz.targetWord q) = Some tw ∧
       tw ∈ ws ∧
       JapaneseWord.examples tw = Some exs ∧
       ExampleQuiz.randomExample q ∈ exs ∧
       ExampleQuiz.correctAnswer q = first_meaning tw ∧
       ExampleQuiz.questionText q
       = example_prompt (first_written tw) (ExampleQuiz.randomExample q) ∧
       ∃ before between,
         ExampleQuiz.questionText q
         = before ++ Example.japanese (ExampleQuiz.randomExample q)
             ++ between ++ Example.chinese (ExampleQuiz.randomExample q)).
Proof.
  intros Hstore Hfuel.
  destruct (exampleQuizQuestion_spec fuel s ws Hstore Hfuel) as [Hnone Hsome].
  split.
  - intros Hno. destruct (Hnone Hno) as (s' & msg & Hq & Hui & Hmsg).
    exists s', msg. split; [done|]. split; [|done].
    intros choice. by apply showExampleQuiz_none.
  - intros Hyes.
    destruct (Hsome Hyes) as (q & s' & tw & exs & Hq & Hui & Htw & Hin & Hexs & Hex & Hrest).
    exists q, s', tw, exs. split; [done|]. split; [|done].
    intros choice. destruct (showExampleQuiz_some fuel choice s q s' Hq) as (s'' & fb & Hrun & Hui').
    exists s'', fb. split; [done|]. by rewrite Hui', Hui.
Qed.

Lemma example_quiz_question_witness :
  store example_state = Some [example_word] ∧
  (length [example_word] ≤ 1)%nat ∧
  (filter (λ w, has_examples w = true) [example_word] = [] →
     ∃ s' msg,
       exampleQuizQuestion 1 example_state = Ret None s' ∧
       (∀ choice, showExampleQuiz 1 choice example_state = Ret tt s') ∧
       ui s' = (ui example_state ++ [msg])%list ∧
       msg = (if decide ([example_word] = []) then ShowWarningMessage not_loaded_message
              else ShowInformationMessage no_examples_message)) ∧
  (filter (λ w, has_examples w = true) [example_word] ≠ [] →
     ∃ q s' tw exs,
       exampleQuizQuestion 1 example_state = Ret (Some q) s' ∧
       (∀ choice, ∃ s'' feedback,
          showExampleQuiz 1 choice example_state = Ret tt s'' ∧
          ui s'' = (ui example_state
                    ++ ShowQuickPick (quick_pick_items (ExampleQuiz.options q))
                         (ExampleQuiz.questionText q) :: feedback)%list) ∧
       word_at (heap example_state) (ExampleQuiz.targetWord q) = Some tw ∧
       tw ∈ [example_word] ∧
       JapaneseWord.examples tw = Some exs ∧
       ExampleQuiz.randomExample q ∈ exs ∧
       ExampleQuiz.correctAnswer q = first_meaning tw ∧
       ExampleQuiz.questionText q
       = example_prompt (first_written tw) (ExampleQuiz.randomExample q) ∧
       ∃ before between,
         ExampleQuiz.questionText q
         = before ++ Example.japanese (ExampleQuiz.randomExample q)
             ++ between ++ Example.chinese (ExampleQuiz.randomExample q)).
Proof.
  assert (Hstore : store example_state = Some [example_word]) by (vm_compute; reflexivity).
  assert (Hfuel : (length [example_word] ≤ 1)%nat) by (simpl; lia).
  split; [exact Hstore|]. split; [exact Hfuel|].
  exact (example_quiz_question 1 example_state [example_word] Hstore Hfuel).
Defined.

(** ** Scenarios of the specification, run on the model *)

(** Scenario A: with the three default Words, sampling three meanings with
    "1" excluded returns the two remaining meanings. *)
Example scenario_fallback_sample :
  result_of (sampler Meaning 2 "1" 3 fallback_state) = Some [JStr "學習"; JStr "老師"].
Proof. vm_compute. reflexivity. Qed.

(** Scenario B: on the empty store no question is built. *)
Example scenario_empty_store :
  store empty_state = Some [] ∧
  generateQuizQuestion 0 empty_state = Ret None empty_state.
Proof. split; vm_compute; reflexivity. Qed.

(** Scenario C: one Word with one example. *)
Example scenario_one_example :
  result_of ((q <- exampleQuizQuestion 1 ;; ret (option_map ExampleQuiz.questionText q))
               example_state)
  = Some (Some "以下例句中的「学校」是什麼意思？

例句：学校に行きます。
去學校。").
Proof. vm_compute. reflexivity. Qed.

(** Scenario D: a payload whose [success] is false. *)
Example scenario_refused_payload :
  result_of ((loadVocabularyData refused_response (Response 200 ["{}"]) ;;; getWordsCount)
               empty_state) = Some 3%nat.
Proof. vm_compute. reflexivity. Qed.

(** A negative count: the loop does not run. *)
Example sample_negative_count :
  result_of (sampler Meaning 0 "1" (-1) fallback_state) = Some [].
Proof. vm_compute. reflexivity. Qed.

(** A successful payload without Words is not a failure: the collection is
    left empty and nothing is shown. *)
Example load_blank_payload :
  let s := state_after (loadVocabularyData blank_response (Response 200 ["{}"])) empty_state in
  store s = Some [] ∧ ui s = [].
Proof. split; vm_compute; reflexivity. Qed.

(** A truthy [success] without [data]: [Object.entries] throws after
    [this.words = []]; the collection is the default Words and the notice is
    shown once. *)
Example load_dataless_payload :
  let s := state_after (loadVocabularyData dataless_response (Response 200 ["{}"])) empty_state in
  state_after (loadVocabularyData_try dataless_response (Response 200 ["{}"])) empty_state
  = set_wordManager (Some (mkManager 1%nat Null))
      (set_heap (<[1%nat:=CArray []]> (heap empty_state)) empty_state) ∧
  store s = Some defaultWords ∧ ui s = [ShowErrorMessage fallback_message].
Proof. repeat split; vm_compute; reflexivity. Qed.

(** A level that is not an array: the Words of the levels before it have
    been pushed when the [TypeError] is thrown; the fallback replaces
    them. *)
Example load_ill_shaped_payload :
  let net := Response 200 ["{}"] in
  result_of (loadVocabularyData_try ill_shaped_response net empty_state) = None ∧
  store (state_after (loadVocabularyData_try ill_shaped_response net) empty_state)
  = Some [with_level twin1 "N5"] ∧
  load_fails ill_shaped_response net = true ∧
  store (state_after (loadVocabularyData ill_shaped_response net) empty_state)
  = Some defaultWords ∧
  ui (state_after (loadVocabularyData ill_shaped_response net) empty_state)
  = [ShowErrorMessage fallback_message].
Proof. repeat split; vm_compute; reflexivity. Qed.

(** * Further properties of the code *)

(** ** Every outcome of a load *)

(** [loadDefaultWords], in full. *)
Lemma loadDefaultWords_full s this :
  wordManager s = Some this →
  ∃ s' a,
    loadDefaultWords s = Ret tt s' ∧
    store s' = Some defaultWords ∧
    wordManager s' = Some (mkManager a (currentWord this)) ∧
    heap s !! a = None ∧
    preserves_heap s s' ∧
    random s' = random s ∧ ui s' = ui s ∧ draws s' = draws s.
Proof.
  intros Hthis. destruct (alloc_words_spec defaultWords s)
    as (rs & s1 & Hrun & Hpt & Hpres & Hm & Hrnd & Hui & Hdraws).
  unfold loadDefaultWords, bind. rewrite Hrun, alloc_run.
  set (a := fresh (dom (heap s1))).
  set (s2 := set_heap (<[a:=CArray rs]> (heap s1)) s1).
  rewrite (set_this_words_ok a s2 this) by (simpl; congruence).
  eexists _, a. split; [done|]. split.
  { apply store_Some. exists (mkManager a (currentWord this)), rs. simpl.
    split; [done|]. split; [by rewrite lookup_insert_eq|]. by apply pointed_fresh. }
  split; [done|]. split.
  { destruct (heap s !! a) as [c|] eqn:Ha; [|done].
    apply Hpres in Ha. by apply fresh_lookup_ne in Ha. }
  split.
  { eapply preserves_heap_trans; [exact Hpres|].
    by eapply (preserves_heap_fresh s1 (set_wordManager _ s2)). }
  done.
Qed.

Section LoadSpec.
Variable JSON_parse : string → option Parsed.

(** Every outcome of a load whose request settles. *)
Lemma loadVocabularyData_spec net s this :
  wordManager s = Some this →
  settles net = true →
  ∃ s' a,
    loadVocabularyData JSON_parse net s = Ret tt s' ∧
    wordManager s' = Some (mkManager a (currentWord this)) ∧
    heap s !! a = None ∧
    preserves_heap s s' ∧
    random s' = random s ∧ draws s' = draws s ∧
    (load_fails JSON_parse net = true →
       store s' = Some defaultWords ∧
       ui s' = (ui s ++ [ShowErrorMessage fallback_message])%list) ∧
    (load_fails JSON_parse net = false →
       ∃ chunks entries,
         net = Response 200 chunks ∧
         JSON_parse (concat_chunks chunks) = Some (ParsedValue true (Entries entries)) ∧
         forallb (λ entry, is_words entry.2) entries = true ∧
         store s' = Some (loaded_words entries) ∧
         ui s' = ui s).
Proof.
  intros Hthis Hsettles.
  destruct (load_try_spec JSON_parse net s this Hthis Hsettles)
    as (s1 & a1 & Htry & Hm1 & Hpres1 & Hrnd1 & Hdraws1 & Hui1).
  destruct (load_fails JSON_parse net) eqn:Hf.
  - (* the load fails *)
    destruct Htry as (e & Hthrow).
    set (s2 := set_ui (ui s1 ++ [ShowErrorMessage fallback_message])%list s1).
    destruct (loadDefaultWords_full s2 _ Hm1)
      as (s' & a & Hrun & Hstore & Hm & Ha & Hpres & Hrnd & Hui & Hdraws).
    exists s', a. split.
    { unfold loadVocabularyData, try_catch. rewrite Hthrow. unfold bind, show.
      fold s2. by rewrite Hrun. }
    split; [done|].
    split. { destruct (heap s !! a) as [c|] eqn:Hc; [|done]. apply Hpres1 in Hc. simpl in Ha. congruence. }
    split. { eapply preserves_heap_trans; [exact Hpres1|exact Hpres]. }
    split; [by rewrite Hrnd|]. split; [by rewrite Hdraws|].
    split; [|done]. intros _. split; [done|]. rewrite Hui. simpl. by rewrite Hui1.
  - (* the load succeeds *)
    destruct Htry as (Htry & Ha1 & chunks & entries & Hnet & Hparse & Hall & Hstore).
    exists s1, a1. split.
    { unfold loadVocabularyData, try_catch. by rewrite Htry. }
    split; [done|]. split; [done|]. split; [done|]. split; [done|]. split; [done|].
    split; [done|]. intros _. by exists chunks, entries.
Qed.
End LoadSpec.

(** ** The question builder, in full *)

(** Everything a call of the sampler gives, for a budget of the store size. *)
Lemma sampler_full p fuel excludeId count s ws :
  store s = Some ws →
  (length ws ≤ fuel)%nat →
  (0 ≤ count)%Z →
  ∃ vs s' n,
    sampler p fuel excludeId count s = Ret vs s' ∧
    same_session s s' ∧
    preserves_heap s s' ∧
    store s' = Some ws ∧
    draws s' = (draws s + n)%nat ∧
    (n ≤ length (candidates excludeId ws))%nat ∧
    NoDup vs ∧
    (∀ v, v ∈ vs → ∃ w, w ∈ ws ∧ JapaneseWord.id w ≠ excludeId ∧ project p w = v) ∧
    Z.of_nat (length vs)
    = Z.min count (Z.of_nat (length (remove_dups (project p <$> candidates excludeId ws)))).
Proof.
  intros Hstore Hfuel Hcount. rewrite sampler_sample.
  destruct (sample_spec (project p) excludeId count s ws Hstore)
    as (vs & s' & rest & n & Hrun & _ & Hsess & Hheap & Hdraws & Hn & _ & Hlen & Hnd & Hfrom & Hall).
  pose proof (candidates_length excludeId ws).
  assert (Hpres : preserves_heap s s') by (by eapply preserves_heap_fresh).
  exists vs, s', n. split; [apply Hrun; lia|]. split; [done|]. split; [done|].
  split. { destruct Hsess as (Hm & _). by apply (preserves_heap_store s s'). }
  split; [done|]. split; [lia|]. split; [done|].
  split.
  { intros v Hv. apply Hfrom, list_elem_of_fmap in Hv as (w & -> & Hw).
    apply list_elem_of_filter in Hw as [Hid Hw]. eauto. }
  pose proof (NoDup_within_length vs _ Hnd Hfrom) as Hle.
  destruct Hall as [Hfull|Hall].
  - lia.
  - rewrite <- (NoDup_covering_length vs _ Hnd Hfrom Hall). lia.
Qed.

Lemma quiz_switch_spec fuel k targetWord tw s ws :
  store s = Some ws →
  (length ws ≤ fuel)%nat →
  heap s !! targetWord = Some (CWord tw) →
  (k < 3)%nat →
  ∃ p vs s' n,
    quiz_switch fuel (questionTypes !! k) targetWord s
    = Ret (quiz_prompt p tw, project p tw, vs) s' ∧
    same_session s s' ∧
    preserves_heap s s' ∧
    store s' = Some ws ∧
    draws s' = (draws s + n)%nat ∧
    (n ≤ length (candidates (JapaneseWord.id tw) ws))%nat ∧
    NoDup vs ∧
    (∀ v, v ∈ vs → ∃ w, w ∈ ws ∧ JapaneseWord.id w ≠ JapaneseWord.id tw ∧ project p w = v) ∧
    Z.of_nat (length vs)
    = Z.min 3 (Z.of_nat (length (remove_dups
                                   (project p <$> candidates (JapaneseWord.id tw) ws)))).
Proof.
  intros Hstore Hfuel Htw Hk.
  assert (Hp : ∃ p, questionTypes !! k = Some (match p with
                                               | Meaning => "meaning"
                                               | Reading => "reading"
                                               | WrittenForm => "word"
                                               end)).
  { destruct k as [|[|[|k]]]; [by exists Meaning|by exists Reading|by exists WrittenForm|lia]. }
  destruct Hp as [p Hp]. rewrite Hp.
  destruct (sampler_full p fuel (JapaneseWord.id tw) 3 s ws Hstore Hfuel)
    as (vs & s' & n & Hrun & Hrest); [lia|].
  exists p, vs, s', n. split; [|exact Hrest].
  unfold quiz_switch.
  destruct p; simpl in Hrun.
  - rewrite decide_True by done.
    unfold bind. by rewrite (deref_ok _ _ _ Htw), Hrun.
  - rewrite decide_False by done. rewrite decide_True by done.
    unfold bind. by rewrite (deref_ok _ _ _ Htw), Hrun.
  - rewrite decide_False by done. rewrite decide_False by done.
    rewrite decide_True by done.
    unfold bind. by rewrite (deref_ok _ _ _ Htw), Hrun.
Qed.

(** What [generateQuizQuestion] builds on a non-empty store. *)
Lemma generateQuizQuestion_spec fuel s ws :
  store s = Some ws →
  ws ≠ [] →
  (length ws ≤ fuel)%nat →
  ∃ q s' tw p vs,
    generateQuizQuestion fuel s = Ret (Some q) s' ∧
    heap s !! QuizQuestion.targetWord q = Some (CWord tw) ∧
    tw ∈ ws ∧
    QuizQuestion.questionText q = quiz_prompt p tw ∧
    QuizQuestion.correctAnswer q = project p tw ∧
    QuizQuestion.options q ≡ₚ make_options (project p tw) vs ∧
    NoDup vs ∧
    (∀ v, v ∈ vs → ∃ w, w ∈ ws ∧ JapaneseWord.id w ≠ JapaneseWord.id tw ∧ project p w = v) ∧
    Z.of_nat (length vs)
    = Z.min 3 (Z.of_nat (length (remove_dups
                                   (project p <$> candidates (JapaneseWord.id tw) ws)))) ∧
    same_session s s' ∧
    preserves_heap s s' ∧
    store s' = Some ws ∧
    (draws s + 2 ≤ draws s')%nat ∧
    (draws s' ≤ draws s + 2 + length (candidates (JapaneseWord.id tw) ws) + length vs)%nat.
Proof.
  intros Hstore Hne Hfuel.
  pose proof Hstore as Hstore0.
  apply store_Some in Hstore as (this & rs & Hthis & Hrs & Hpt).
  destruct (getRandomWord_spec s this rs ws Hthis Hrs Hpt) as [Hsome _].
  destruct (Hsome Hne) as (r & tw & Hpick & _ & Htw & Hin).
  set (s1 := set_draws (S (draws s)) s) in *.
  set (s2 := set_draws (S (draws s1)) s1).
  set (k := floor_mul (random s1 (draws s1)) (length questionTypes)).
  assert (Hk : (k < 3)%nat) by (apply (floor_mul_lt _ 3); lia).
  destruct (quiz_switch_spec fuel k r tw s2 ws)
    as (p & vs & s3 & n & Hswitch & Hsess & Hpres & Hstore3 & Hdraws & Hn & Hnd & Hfrom & Hlen);
    [done..|].
  destruct (shuffle_runs (make_options (project p tw) vs) s3) as (Hshuffle & Hperm).
  eexists _, _, tw, p, vs. split.
  { unfold generateQuizQuestion, bind, get_state. rewrite Hthis.
    rewrite (getWordsCount_ok _ _ _ Hthis Hrs).
    destruct (Nat.eqb_spec (length rs) 0) as [H0|_].
    { pose proof (pointed_length _ _ _ Hpt). destruct ws; [done|]. simpl in *. lia. }
    unfold getRandomWordForQuiz. rewrite Hpick. rewrite random_index_run.
    fold k. fold s2. rewrite Hswitch. rewrite Hshuffle. reflexivity. }
  simpl. split; [done|]. split; [done|]. split; [done|]. split; [done|].
  split; [done|]. split; [done|]. split; [done|]. split; [done|].
  destruct Hsess as (Hm & Hrnd & Hui).
  split; [done|]. split; [done|]. split; [done|].
  unfold make_options. simpl. rewrite length_map. simpl in Hdraws. lia.
Qed.

(** ** The quiz commands *)

Lemma quick_pick_items_lookup options i :
  quick_pick_items options !! i
  = (λ o, mkItem (pretty (i + 1)%nat ++ ". " ++ to_string (text o)) o) <$> options !! i.
Proof. unfold quick_pick_items. by rewrite list_lookup_imap. Qed.

Lemma picked_item options choice :
  answerData <$> (choice ≫= (quick_pick_items options !!.)) = choice ≫= (options !!.).
Proof.
  destruct choice as [i|]; [|done]. simpl. rewrite quick_pick_items_lookup.
  by destruct (options !! i).
Qed.

Lemma generateQuizQuestion_none fuel s :
  wordManager s = None ∨ store s = Some [] →
  generateQuizQuestion fuel s = Ret None s.
Proof.
  intros [Hnone|Hempty]; unfold generateQuizQuestion, bind, get_state.
  - by rewrite Hnone.
  - apply store_Some in Hempty as (this & rs & Hthis & Hrs & Hpt).
    rewrite Hthis, (getWordsCount_ok _ _ _ Hthis Hrs).
    apply pointed_length in Hpt. by destruct rs.
Qed.

Lemma startQuiz_gate s (k : M unit) :
  (s0 <- get_state ;;
   gated <- match wordManager s0 with
            | None => ret true
            | Some _ =>
                current <- getCurrentWord ;;
                ret (match current with Null => true | _ => false end)
            end ;;
   if (gated : bool) then show (ShowWarningMessage not_loaded_message) else k) s
  = if match wordManager s with
       | None => true
       | Some this => match currentWord this with Null => true | _ => false end
       end
    then show (ShowWarningMessage not_loaded_message) s else k s.
Proof.
  unfold bind, get_state, getCurrentWord. destruct (wordManager s) as [this|] eqn:Hm; [|done].
  rewrite Hm. unfold ret. by destruct (currentWord this).
Qed.

Lemma startQuiz_run fuel choice s q s1 :
  (∃ this, wordManager s = Some this ∧ currentWord this ≠ Null) →
  generateQuizQuestion fuel s = Ret q s1 →
  ∃ s',
    startQuiz fuel choice s = Ret tt s' ∧
    ui s' = (ui s1 ++
             match q with
             | None => [ShowErrorMessage quiz_not_built_message]
             | Some q =>
                 ShowQuickPick (quick_pick_items (QuizQuestion.options q))
                   (QuizQuestion.questionText q)
                 :: feedback_for "🎉 答對了！繼續加油！" (QuizQuestion.correctAnswer q)
                      (choice ≫= (QuizQuestion.options q !!.))
             end)%list ∧
    heap s' = heap s1 ∧ wordManager s' = wordManager s1 ∧ draws s' = draws s1.
Proof.
  intros (this & Hthis & Hcur) Hq. unfold startQuiz, try_catch.
  rewrite startQuiz_gate by done. rewrite Hthis.
  destruct (currentWord this) eqn:Hc; [done|..];
    (unfold bind; rewrite Hq; destruct q as [q|]; [|by eexists]; unfold show;
     rewrite <- picked_item;
     destruct (choice ≫= _) as [selectedAnswer|]; simpl;
       [destruct (isCorrect (answerData selectedAnswer))|];
       eexists; (split; [reflexivity|]); simpl; rewrite <- ?app_assoc; done).
Qed.

Lemma store_set_currentWord s this r ws :
  wordManager s = Some this →
  store s = Some ws →
  store (set_wordManager (Some (mkManager (words this) r)) s) = Some ws.
Proof.
  intros Hthis Hstore. apply store_Some in Hstore as (this' & rs & Hthis' & Hrs & Hpt).
  assert (this' = this) as -> by congruence.
  apply store_Some. by exists (mkManager (words this) r), rs.
Qed.

(** What [updateStatusBar] does. *)
Lemma updateStatusBar_spec s ws this :
  wordManager s = Some this →
  store s = Some ws →
  (ws = [] →
   updateStatusBar s
   = Ret loading_item (set_wordManager (Some (mkManager (words this) Null)) s)) ∧
  (ws ≠ [] →
   ∃ r w,
     updateStatusBar s
     = Ret (StatusBarItem.mk
              ("$(book) " ++ joined "／" (JapaneseWord.japanese w)
               ++ " (" ++ joined "／" (JapaneseWord.reading w) ++ ")")
              (hover_tooltip w))
           (set_wordManager (Some (mkManager (words this) (Obj r)))
              (set_draws (S (draws s)) s)) ∧
     heap s !! r = Some (CWord w) ∧ w ∈ ws).
Proof.
  intros Hthis Hstore.
  apply store_Some in Hstore as (this' & rs & Hthis' & Hrs & Hpt).
  assert (this' = this) as -> by congruence.
  destruct (getRandomWord_spec s this rs ws Hthis Hrs Hpt) as [Hsome Hnull].
  split.
  - intros Hws. unfold updateStatusBar, bind. rewrite (Hnull Hws).
    unfold set_currentWord. by rewrite Hthis.
  - intros Hws. destruct (Hsome Hws) as (r & w & Hpick & _ & Hw & Hin).
    exists r, w. split; [|done].
    unfold updateStatusBar, bind. rewrite Hpick.
    unfold set_currentWord. simpl. rewrite Hthis.
    by rewrite (deref_ok r w).
Qed.

Lemma getWordsWithExamples_spec s ws this :
  wordManager s = Some this →
  store s = Some ws →
  ∃ kept,
    getWordsWithExamples s
    = Ret (fresh (dom (heap s)))
          (set_heap (<[fresh (dom (heap s)):=CArray kept]> (heap s)) s) ∧
    pointed (heap s) kept (filter (λ w, has_examples w = true) ws).
Proof.
  intros Hthis Hstore.
  apply store_Some in Hstore as (this' & rs & Hthis' & Hrs & Hpt).
  assert (this' = this) as -> by congruence.
  destruct (array_filter_spec has_examples (λ w, has_examples w = true) s (words this) rs ws)
    as (kept & Hfilter & Hkept); [|done..|].
  { intros w. by destruct (has_examples w). }
  exists kept. split; [|done].
  unfold getWordsWithExamples, bind, get_state. by rewrite Hthis.
Qed.

Lemma showExampleQuiz_run fuel choice s q s1 :
  exampleQuizQuestion fuel s = Ret (Some q) s1 →
  ∃ s',
    showExampleQuiz fuel choice s = Ret tt s' ∧
    ui s' = (ui s1 ++
             ShowQuickPick (quick_pick_items (ExampleQuiz.options q))
               (ExampleQuiz.questionText q)
             :: feedback_for "🎉 答對了！例句理解正確！" (ExampleQuiz.correctAnswer q)
                  (choice ≫= (ExampleQuiz.options q !!.)))%list.
Proof.
  intros Hq. unfold showExampleQuiz, try_catch, bind. rewrite Hq. unfold show.
  rewrite <- picked_item.
  destruct (choice ≫= _) as [selectedAnswer|]; simpl;
    [destruct (isCorrect (answerData selectedAnswer))|];
    eexists; (split; [reflexivity|]); simpl; rewrite <- ?app_assoc; done.
Qed.

Lemma showExampleQuiz_unloaded fuel choice s :
  wordManager s = None →
  showExampleQuiz fuel choice s
  = Ret tt (set_ui (ui s ++ [ShowWarningMessage not_loaded_message])%list s).
Proof.
  intros Hnone. unfold showExampleQuiz, try_catch, exampleQuizQuestion, bind, get_state.
  by rewrite Hnone.
Qed.

(** ** Reachable arrangements of the shuffle *)

Lemma exchange_lookup_l {A} (i j : nat) (l : list A) :
  (i < length l)%nat → (j < length l)%nat → exchange i j l !! i = l !! j.
Proof.
  intros Hi Hj. unfold exchange.
  destruct (lookup_lt_is_Some_2 _ _ Hi) as [a Ha].
  destruct (lookup_lt_is_Some_2 _ _ Hj) as [b Hb]. rewrite Ha, Hb.
  rewrite list_lookup_insert_eq by (by rewrite length_insert). done.
Qed.

Lemma exchange_drop {A} (i j k : nat) (l : list A) :
  (i < k)%nat → (j < k)%nat → drop k (exchange i j l) = drop k l.
Proof.
  intros Hi Hj. unfold exchange. destruct (l !! i), (l !! j); try done.
  by rewrite !drop_insert_lt.
Qed.

Lemma floor_mul_frac (j i : nat) : (j ≤ i)%nat → floor_mul (frac j (i - j)) (i + 1) = j.
Proof.
  intros Hj. unfold floor_mul, frac. simpl.
  replace (j + (i - j) + 1)%nat with (i + 1)%nat by lia. apply Nat.div_mul. lia.
Qed.

(** Every arrangement that keeps the elements after position [n] is
    produced by some choice of indices for the positions [n] down to 1. *)
Lemma exchanges_reach {A} (n : nat) : ∀ (l target : list A),
  (n < length l ∨ n = 0)%nat →
  target ≡ₚ l →
  drop (S n) target = drop (S n) l →
  ∃ pick : nat → nat,
    (∀ i, (pick i ≤ i)%nat) ∧
    foldl (λ acc i, exchange i (pick i) acc) l (reverse (seq 1 n)) = target.
Proof.
  induction n as [|n IH]; intros l target Hn Hperm Hdrop.
  - exists (λ _, 0%nat). split; [intros; lia|]. simpl.
    destruct l as [|a l], target as [|b target]; try done.
    + symmetry in Hperm. by apply Permutation_nil_cons in Hperm.
    + by apply Permutation_nil_cons in Hperm.
    + simpl in Hdrop. rewrite !drop_0 in Hdrop. subst target.
      change ([b] ++ l ≡ₚ [a] ++ l) in Hperm.
      apply Permutation_app_inv_r, Permutation_singleton_inj in Hperm. by subst.
  - assert (Hlen : length target = length l) by (by apply Permutation_length).
    assert (Hlt : (S n < length l)%nat) by lia.
    destruct (lookup_lt_is_Some_2 target (S n)) as [x Hx]; [lia|].
    assert (Htake : take (S (S n)) target ≡ₚ take (S (S n)) l).
    { apply (Permutation_app_inv_r (drop (S (S n)) l)).
      rewrite <- Hdrop at 1. by rewrite !take_drop. }
    assert (Hxin : x ∈ take (S (S n)) l).
    { rewrite <- Htake. apply elem_of_take. exists (S n). split; [done|lia]. }
    apply elem_of_take in Hxin as (j & Hj & Hjlt).
    set (l1 := exchange (S n) j l).
    assert (Hj' : (j < length l)%nat) by (by apply lookup_lt_Some in Hj).
    assert (Hl1 : l1 !! S n = Some x).
    { unfold l1. by rewrite exchange_lookup_l. }
    destruct (IH l1 target) as (pick & Hpick & Hfold).
    { left. unfold l1. rewrite exchange_length. lia. }
    { rewrite Hperm. unfold l1. symmetry. apply exchange_Permutation. }
    { rewrite (drop_S target x (S n) Hx), (drop_S l1 x (S n) Hl1). f_equal.
      rewrite Hdrop. unfold l1. symmetry. apply exchange_drop; lia. }
    exists (λ i, if decide (i = S n) then j else pick i). split.
    { intros i. case_decide; [lia|apply Hpick]. }
    rewrite reverse_seq_S. cbn [foldl]. rewrite decide_True by done. fold l1.
    rewrite <- Hfold. apply foldl_ext_in. intros acc i Hi.
    apply elem_of_reverse, elem_of_seq in Hi. rewrite decide_False by lia. done.
Qed.

Lemma shuffle_reaches {A} (options target : list A) s :
  target ≡ₚ options →
  ∃ rnd s', shuffle options (with_random rnd s) = Ret target s'.
Proof.
  intros Hperm. set (last := (length options - 1)%nat).
  destruct (exchanges_reach last options target) as (pick & Hpick & Hfold).
  { lia. }
  { done. }
  { rewrite !drop_ge; [done|lia|]. apply Permutation_length in Hperm. lia. }
  set (rnd := λ k, let i := (last - (k - draws s))%nat in frac (pick i) (i - pick i)).
  exists rnd. eexists.
  destruct (shuffle_runs options (with_random rnd s)) as (Hrun & _).
  rewrite Hrun. f_equal. rewrite <- Hfold. unfold fisher_yates. fold last.
  apply foldl_ext_in. intros acc i Hi. apply elem_of_reverse, elem_of_seq in Hi.
  f_equal. unfold drawn_index, rnd. simpl.
  replace (last - (draws s + (last - i) - draws s))%nat with i by lia.
  apply floor_mul_frac, Hpick.
Qed.

(** ** Loading *)

Lemma loaded_words_length entries :
  length (loaded_words entries) = sum_list (length ∘ level_words <$> entries).
Proof.
  unfold loaded_words. induction entries as [|entry entries IH]; [done|].
  rewrite bind_cons, length_app, IH. done.
Qed.

Lemma loaded_words_level entries w :
  w ∈ loaded_words entries →
  ∃ level levelWords word,
    (level, Words levelWords) ∈ entries ∧ word ∈ levelWords ∧ w = with_level word level.
Proof.
  unfold loaded_words. intros Hw.
  apply list_elem_of_bind in Hw as ([level [|levelWords]] & Hw & Hin).
  { by apply elem_of_nil in Hw. }
  unfold level_words in Hw. simpl in Hw. apply list_elem_of_fmap in Hw as (word & -> & Hword).
  by exists level, levelWords, word.
Qed.

(** X1. A load that succeeds: the response ends with status 200, the text
    gathered from its chunks (each chunk converted to text on its own, in
    the order of arrival) parses to a value whose [success] is truthy and
    whose [data] has an array under every key.  Then the method returns
    normally, shows nothing and draws no random value; the collection is
    exactly the records of those arrays, key after key in the order in which
    [Object.entries] lists the keys (integer-like keys first, then the
    others in the order of the text, which need not be the order of the
    payload), each record with its key as [level] (whatever level it
    carried) and its other fields as received; what the collection held
    before is gone from it; [getWordsCount] is the total number of
    records. *)
Theorem load_success_stores_response JSON_parse chunks entries s this :
  wordManager s = Some this →
  JSON_parse (concat_chunks chunks) = Some (ParsedValue true (Entries entries)) →
  forallb (λ entry, is_words entry.2) entries = true →
  ∃ s',
    loadVocabularyData JSON_parse (Response 200 chunks) s = Ret tt s' ∧
    store s' = Some (loaded_words entries) ∧
    getWordsCount s' = Ret (sum_list (length ∘ level_words <$> entries)) s' ∧
    (∀ w, w ∈ loaded_words entries →
       ∃ level levelWords word,
         (level, Words levelWords) ∈ entries ∧ word ∈ levelWords ∧
         w = with_level word level ∧ JapaneseWord.level w = Some level ∧
         JapaneseWord.id w = JapaneseWord.id word) ∧
    ui s' = ui s ∧ draws s' = draws s.
Proof.
  intros Hthis Hparse Hall.
  destruct (loadVocabularyData_spec JSON_parse (Response 200 chunks) s this Hthis eq_refl)
    as (s' & a & Hrun & Hm & _ & _ & _ & Hdraws & _ & Hok).
  destruct Hok as (chunks' & entries' & Hnet & Hparse' & _ & Hstore & Hui).
  { unfold load_fails. rewrite Z.eqb_refl, Hparse. cbn [well_shaped andb]. by rewrite Hall. }
  injection Hnet as <-. assert (entries' = entries) as -> by congruence.
  exists s'. split; [done|]. split; [done|].
  split.
  { pose proof Hstore as Hs. apply store_Some in Hs as (this' & rs & Hthis' & Hrs & Hpt).
    rewrite (getWordsCount_ok _ _ _ Hthis' Hrs), (pointed_length _ _ _ Hpt).
    by rewrite loaded_words_length. }
  split; [|done].
  intros w Hw. destruct (loaded_words_level entries w Hw) as (level & lw & word & ? & ? & ->).
  exists level, lw, word. done.
Qed.

Lemma load_success_stores_response_witness :
  wordManager fallback_state = Some (mkManager 4%nat Null) ∧
  twin_response (concat_chunks ["{}"])
  = Some (ParsedValue true (Entries [("N5", Words [twin1; twin2])])) ∧
  forallb (λ entry, is_words entry.2) [("N5", Words [twin1; twin2])] = true ∧
  ∃ s',
    loadVocabularyData twin_response (Response 200 ["{}"]) fallback_state = Ret tt s' ∧
    store s' = Some (loaded_words [("N5", Words [twin1; twin2])]) ∧
    getWordsCount s'
    = Ret (sum_list (length ∘ level_words <$> [("N5", Words [twin1; twin2])])) s' ∧
    (∀ w, w ∈ loaded_words [("N5", Words [twin1; twin2])] →
       ∃ level levelWords word,
         (level, Words levelWords) ∈ [("N5", Words [twin1; twin2])] ∧
         word ∈ levelWords ∧
         w = with_level word level ∧ JapaneseWord.level w = Some level ∧
         JapaneseWord.id w = JapaneseWord.id word) ∧
    ui s' = ui fallback_state ∧ draws s' = draws fallback_state.
Proof.
  assert (Hthis : wordManager fallback_state = Some (mkManager 4%nat Null))
    by (vm_compute; reflexivity).
  assert (Hparse : twin_response (concat_chunks ["{}"])
                   = Some (ParsedValue true (Entries [("N5", Words [twin1; twin2])])))
    by reflexivity.
  assert (Hall : forallb (λ entry, is_words entry.2) [("N5", Words [twin1; twin2])] = true)
    by reflexivity.
  split; [exact Hthis|]. split; [exact Hparse|]. split; [exact Hall|].
  exact (load_success_stores_response twin_response ["{}"] _ fallback_state _
           Hthis Hparse Hall).
Defined.

(** X2. Whenever the request settles (the response ends, with any status,
    or the request fails or times out), and whatever the parser gives,
    [loadVocabularyData] returns normally; it assigns a newly allocated
    array to [this.words], keeps [currentWord] (which may then point to a
    Word that is no longer in the collection), leaves every object and array
    that existed untouched, draws no random value and shows at most one
    message, the fallback notice.  (A response that is cut before its end is
    the other case: see [load_cut_pending].) *)
Theorem load_keeps_objects JSON_parse net s this :
  wordManager s = Some this →
  settles net = true →
  ∃ s' a,
    loadVocabularyData JSON_parse net s = Ret tt s' ∧
    wordManager s' = Some (mkManager a (currentWord this)) ∧
    heap s !! a = None ∧
    preserves_heap s s' ∧
    random s' = random s ∧
    draws s' = draws s ∧
    (ui s' = ui s ∨ ui s' = (ui s ++ [ShowErrorMessage fallback_message])%list).
Proof.
  intros Hthis Hsettles.
  destruct (loadVocabularyData_spec JSON_parse net s this Hthis Hsettles)
    as (s' & a & Hrun & Hm & Ha & Hpres & Hrnd & Hdraws & Hfail & Hok).
  exists s', a. split; [done|]. split; [done|]. split; [done|]. split; [done|].
  split; [done|]. split; [done|].
  destruct (load_fails JSON_parse net).
  - right. by apply Hfail.
  - left. destruct Hok as (? & ? & _ & _ & _ & _ & Hui); done.
Qed.

Lemma load_keeps_objects_witness :
  wordManager shown_state = Some (mkManager 4%nat (Obj 1%nat)) ∧
  settles (Response 200 ["{}"]) = true ∧
  ∃ s' a,
    loadVocabularyData blank_response (Response 200 ["{}"]) shown_state = Ret tt s' ∧
    wordManager s' = Some (mkManager a (currentWord (mkManager 4%nat (Obj 1%nat)))) ∧
    heap shown_state !! a = None ∧
    preserves_heap shown_state s' ∧
    random s' = random shown_state ∧
    draws s' = draws shown_state ∧
    (ui s' = ui shown_state ∨
     ui s' = (ui shown_state ++ [ShowErrorMessage fallback_message])%list).
Proof.
  assert (Hthis : wordManager shown_state = Some (mkManager 4%nat (Obj 1%nat)))
    by (vm_compute; reflexivity).
  assert (Hsettles : settles (Response 200 ["{}"]) = true) by reflexivity.
  split; [exact Hthis|]. split; [exact Hsettles|].
  exact (load_keeps_objects blank_response (Response 200 ["{}"]) shown_state _ Hthis Hsettles).
Defined.

(** ** Questions, status bar and quiz command *)

(** X3. Without a manager, or on an empty collection,
    [generateQuizQuestion] returns [null] and changes nothing: no random
    value is drawn, nothing is allocated, nothing is shown. *)
Theorem generateQuizQuestion_null_unchanged fuel s :
  wordManager s = None ∨ store s = Some [] →
  generateQuizQuestion fuel s = Ret None s.
Proof. apply generateQuizQuestion_none. Qed.

Lemma generateQuizQuestion_null_unchanged_witness :
  (wordManager empty_state = None ∨ store empty_state = Some []) ∧
  generateQuizQuestion 5 empty_state = Ret None empty_state.
Proof.
  assert (H : wordManager empty_state = None ∨ store empty_state = Some [])
    by (right; vm_compute; reflexivity).
  split; [exact H|]. exact (generateQuizQuestion_null_unchanged 5 empty_state H).
Defined.

(** X4. On a non-empty store the target of the question is a Word of the
    store, and the question is of one of three types: the prompt quotes the
    target's first written form and the correct answer is its first meaning
    (or its first reading), or the prompt quotes its first meaning and the
    correct answer is its first written form. *)
Theorem generateQuizQuestion_target fuel s ws :
  store s = Some ws →
  ws ≠ [] →
  (length ws ≤ fuel)%nat →
  ∃ q s' tw p,
    generateQuizQuestion fuel s = Ret (Some q) s' ∧
    word_at (heap s) (QuizQuestion.targetWord q) = Some tw ∧
    tw ∈ ws ∧
    QuizQuestion.questionText q = quiz_prompt p tw ∧
    QuizQuestion.correctAnswer q = project p tw.
Proof.
  intros Hstore Hne Hfuel.
  destruct (generateQuizQuestion_spec fuel s ws Hstore Hne Hfuel)
    as (q & s' & tw & p & vs & Hrun & Htw & Hin & Htext & Hans & _).
  exists q, s', tw, p. split; [done|]. split; [by apply word_at_Some|]. done.
Qed.

Lemma generateQuizQuestion_target_witness :
  store fallback_state = Some defaultWords ∧
  defaultWords ≠ [] ∧
  (length defaultWords ≤ 3)%nat ∧
  ∃ q s' tw p,
    generateQuizQuestion 3 fallback_state = Ret (Some q) s' ∧
    word_at (heap fallback_state) (QuizQuestion.targetWord q) = Some tw ∧
    tw ∈ defaultWords ∧
    QuizQuestion.questionText q = quiz_prompt p tw ∧
    QuizQuestion.correctAnswer q = project p tw.
Proof.
  assert (Hstore : store fallback_state = Some defaultWords) by (vm_compute; reflexivity).
  assert (Hne : defaultWords ≠ []) by discriminate.
  assert (Hfuel : (length defaultWords ≤ 3)%nat) by (vm_compute; lia).
  split; [exact Hstore|]. split; [exact Hne|]. split; [exact Hfuel|].
  exact (generateQuizQuestion_target 3 fallback_state defaultWords Hstore Hne Hfuel).
Defined.

(** X5. The options of a question are the correct answer and the
    distractors, in some order; the distractors are pairwise distinct values
    projected, with the projection of the question's type, from Words whose
    id is not the target's; their number is the minimum of 3 and of the
    number of distinct such values, so that a question has between one and
    four options. *)
Theorem generateQuizQuestion_options fuel s ws :
  store s = Some ws →
  ws ≠ [] →
  (length ws ≤ fuel)%nat →
  ∃ q s' tw p vs,
    generateQuizQuestion fuel s = Ret (Some q) s' ∧
    word_at (heap s) (QuizQuestion.targetWord q) = Some tw ∧
    QuizQuestion.correctAnswer q = project p tw ∧
    QuizQuestion.options q ≡ₚ make_options (QuizQuestion.correctAnswer q) vs ∧
    NoDup vs ∧
    (∀ v, v ∈ vs → ∃ w, w ∈ ws ∧ JapaneseWord.id w ≠ JapaneseWord.id tw ∧ project p w = v) ∧
    Z.of_nat (length (QuizQuestion.options q))
    = (1 + Z.min 3 (Z.of_nat (length (remove_dups
                                        (project p <$> candidates (JapaneseWord.id tw) ws)))))%Z ∧
    (1 ≤ length (QuizQuestion.options q) ≤ 4)%nat.
Proof.
  intros Hstore Hne Hfuel.
  destruct (generateQuizQuestion_spec fuel s ws Hstore Hne Hfuel)
    as (q & s' & tw & p & vs & Hrun & Htw & Hin & Htext & Hans & Hperm & Hnd & Hfrom & Hlen & _).
  assert (Hopts : length (QuizQuestion.options q) = S (length vs)).
  { rewrite Hperm. unfold make_options. simpl. by rewrite length_map. }
  exists q, s', tw, p, vs. split; [done|]. split; [by apply word_at_Some|].
  split; [done|]. split; [by rewrite Hans|]. split; [done|]. split; [done|].
  split; lia.
Qed.

Lemma generateQuizQuestion_options_witness :
  store twin_state = Some [twin1; twin2] ∧
  [twin1; twin2] ≠ [] ∧
  (length [twin1; twin2] ≤ 2)%nat ∧
  ∃ q s' tw p vs,
    generateQuizQuestion 2 twin_state = Ret (Some q) s' ∧
    word_at (heap twin_state) (QuizQuestion.targetWord q) = Some tw ∧
    QuizQuestion.correctAnswer q = project p tw ∧
    QuizQuestion.options q ≡ₚ make_options (QuizQuestion.correctAnswer q) vs ∧
    NoDup vs ∧
    (∀ v, v ∈ vs →
       ∃ w, w ∈ [twin1; twin2] ∧ JapaneseWord.id w ≠ JapaneseWord.id tw ∧ project p w = v) ∧
    Z.of_nat (length (QuizQuestion.options q))
    = (1 + Z.min 3 (Z.of_nat (length (remove_dups
                          (project p <$> candidates (JapaneseWord.id tw) [twin1; twin2])))))%Z ∧
    (1 ≤ length (QuizQuestion.options q) ≤ 4)%nat.
Proof.
  assert (Hstore : store twin_state = Some [twin1; twin2]) by (vm_compute; reflexivity).
  assert (Hne : [twin1; twin2] ≠ []) by discriminate.
  assert (Hfuel : (length [twin1; twin2] ≤ 2)%nat) by (simpl; lia).
  split; [exact Hstore|]. split; [exact Hne|]. split; [exact Hfuel|].
  exact (generateQuizQuestion_options 2 twin_state [twin1; twin2] Hstore Hne Hfuel).
Defined.

(** X6. Building a question leaves the collection, the manager and the
    user interface as they were and keeps every existing object; it draws at
    least two random values (target and type) and at most [2 + size of the
    store + 3]. *)
Theorem generateQuizQuestion_frame fuel s ws :
  store s = Some ws →
  ws ≠ [] →
  (length ws ≤ fuel)%nat →
  ∃ q s',
    generateQuizQuestion fuel s = Ret (Some q) s' ∧
    store s' = Some ws ∧
    wordManager s' = wordManager s ∧
    ui s' = ui s ∧
    preserves_heap s s' ∧
    (draws s + 2 ≤ draws s')%nat ∧
    (draws s' ≤ draws s + 2 + length ws + 3)%nat.
Proof.
  intros Hstore Hne Hfuel.
  destruct (generateQuizQuestion_spec fuel s ws Hstore Hne Hfuel)
    as (q & s' & tw & p & vs & Hrun & _ & _ & _ & _ & _ & _ & _ & Hlen
          & (Hm & _ & Hui) & Hpres & Hstore' & Hlo & Hhi).
  pose proof (candidates_length (JapaneseWord.id tw) ws).
  exists q, s'. split; [done|]. split; [done|]. split; [done|]. split; [done|].
  split; [done|]. split; lia.
Qed.

Lemma generateQuizQuestion_frame_witness :
  store fallback_state = Some defaultWords ∧
  defaultWords ≠ [] ∧
  (length defaultWords ≤ 3)%nat ∧
  ∃ q s',
    generateQuizQuestion 3 fallback_state = Ret (Some q) s' ∧
    store s' = Some defaultWords ∧
    wordManager s' = wordManager fallback_state ∧
    ui s' = ui fallback_state ∧
    preserves_heap fallback_state s' ∧
    (draws fallback_state + 2 ≤ draws s')%nat ∧
    (draws s' ≤ draws fallback_state + 2 + length defaultWords + 3)%nat.
Proof.
  assert (Hstore : store fallback_state = Some defaultWords) by (vm_compute; reflexivity).
  assert (Hne : defaultWords ≠ []) by discriminate.
  assert (Hfuel : (length defaultWords ≤ 3)%nat) by (vm_compute; lia).
  split; [exact Hstore|]. split; [exact Hne|]. split; [exact Hfuel|].
  exact (generateQuizQuestion_frame 3 fallback_state defaultWords Hstore Hne Hfuel).
Defined.

(** X7. [updateStatusBar] on a store: on the empty collection the current
    word becomes [null], the item shows the loading text and no random value
    is drawn; otherwise the current word becomes a Word of the collection,
    drawn with one random value, and the item shows its written forms and
    readings, joined by a full-width slash, with the hover text of that Word.
    The collection, the heap and the messages are unchanged. *)
Theorem updateStatusBar_current_word s ws :
  store s = Some ws →
  ∃ item s' this',
    updateStatusBar s = Ret item s' ∧
    wordManager s' = Some this' ∧
    store s' = Some ws ∧
    heap s' = heap s ∧
    ui s' = ui s ∧
    (ws = [] → currentWord this' = Null ∧ item = loading_item ∧ draws s' = draws s) ∧
    (ws ≠ [] →
     ∃ r w,
       currentWord this' = Obj r ∧ word_at (heap s') r = Some w ∧ w ∈ ws ∧
       StatusBarItem.text item
       = "$(book) " ++ joined "／" (JapaneseWord.japanese w)
         ++ " (" ++ joined "／" (JapaneseWord.reading w) ++ ")" ∧
       StatusBarItem.tooltip item = hover_tooltip w ∧
       draws s' = S (draws s)).
Proof.
  intros Hstore. pose proof Hstore as Hs.
  apply store_Some in Hs as (this & rs & Hthis & _).
  destruct (updateStatusBar_spec s ws this Hthis Hstore) as [Hnull Hsome].
  destruct (decide (ws = [])) as [Hws|Hws].
  - eexists _, _, _. split; [exact (Hnull Hws)|]. split; [done|].
    split; [by apply store_set_currentWord|]. split; [done|]. split; [done|].
    split; [done|]. done.
  - destruct (Hsome Hws) as (r & w & Hrun & Hw & Hin).
    eexists _, _, _. split; [exact Hrun|]. split; [done|].
    split; [by apply (store_set_currentWord (set_draws _ s))|]. split; [done|].
    split; [done|]. split; [done|]. intros _. exists r, w. simpl.
    split; [done|]. split; [by apply word_at_Some|]. done.
Qed.

Lemma updateStatusBar_current_word_witness :
  store example_state = Some [example_word] ∧
  ∃ item s' this',
    updateStatusBar example_state = Ret item s' ∧
    wordManager s' = Some this' ∧
    store s' = Some [example_word] ∧
    heap s' = heap example_state ∧
    ui s' = ui example_state ∧
    ([example_word] = [] →
     currentWord this' = Null ∧ item = loading_item ∧ draws s' = draws example_state) ∧
    ([example_word] ≠ [] →
     ∃ r w,
       currentWord this' = Obj r ∧ word_at (heap s') r = Some w ∧ w ∈ [example_word] ∧
       StatusBarItem.text item
       = "$(book) " ++ joined "／" (JapaneseWord.japanese w)
         ++ " (" ++ joined "／" (JapaneseWord.reading w) ++ ")" ∧
       StatusBarItem.tooltip item = hover_tooltip w ∧
       draws s' = S (draws example_state)).
Proof.
  assert (Hstore : store example_state = Some [example_word]) by (vm_compute; reflexivity).
  split; [exact Hstore|].
  exact (updateStatusBar_current_word example_state [example_word] Hstore).
Defined.

(** X8. [startQuiz] is gated by the current word, not by the collection:
    without a manager, or while [currentWord] is [null] (before the first
    update of the status bar, even when Words are loaded), it shows the
    "load the vocabulary first" warning and does nothing else. *)
Theorem startQuiz_gated fuel choice s :
  (wordManager s = None ∨ ∃ this, wordManager s = Some this ∧ currentWord this = Null) →
  startQuiz fuel choice s
  = Ret tt (set_ui (ui s ++ [ShowWarningMessage not_loaded_message])%list s).
Proof.
  intros Hgate. unfold startQuiz, try_catch. rewrite startQuiz_gate.
  destruct Hgate as [Hnone|(this & Hthis & Hcur)].
  - by rewrite Hnone.
  - by rewrite Hthis, Hcur.
Qed.

Lemma startQuiz_gated_witness :
  (wordManager fallback_state = None ∨
   ∃ this, wordManager fallback_state = Some this ∧ currentWord this = Null) ∧
  startQuiz 3 (Some 0%nat) fallback_state
  = Ret tt (set_ui (ui fallback_state ++ [ShowWarningMessage not_loaded_message])%list
              fallback_state).
Proof.
  assert (H : wordManager fallback_state = None ∨
              ∃ this, wordManager fallback_state = Some this ∧ currentWord this = Null).
  { right. exists (mkManager 4%nat Null). split; vm_compute; reflexivity. }
  split; [exact H|]. exact (startQuiz_gated 3 (Some 0%nat) fallback_state H).
Defined.

(** X9. With a current word and a non-empty store, [startQuiz] shows one
    quick pick, with the options of the question it has built, numbered from
    1, and the prompt as placeholder; then nothing if the user dismisses it,
    the praise if the picked option is the one flagged correct (its text is
    then the correct answer), and otherwise a warning that names the correct
    answer.  It returns normally and leaves the collection unchanged. *)
Theorem startQuiz_asks_and_answers fuel choice s ws this :
  store s = Some ws →
  ws ≠ [] →
  (length ws ≤ fuel)%nat →
  wordManager s = Some this →
  currentWord this ≠ Null →
  ∃ q s1 s',
    generateQuizQuestion fuel s = Ret (Some q) s1 ∧
    startQuiz fuel choice s = Ret tt s' ∧
    ui s' = (ui s ++
             ShowQuickPick (quick_pick_items (QuizQuestion.options q))
               (QuizQuestion.questionText q)
             :: feedback_for "🎉 答對了！繼續加油！" (QuizQuestion.correctAnswer q)
                  (choice ≫= (QuizQuestion.options q !!.)))%list ∧
    (∀ o, choice ≫= (QuizQuestion.options q !!.) = Some o → isCorrect o = true →
          text o = QuizQuestion.correctAnswer q) ∧
    store s' = Some ws.
Proof.
  intros Hstore Hne Hfuel Hthis Hcur.
  destruct (generateQuizQuestion_spec fuel s ws Hstore Hne Hfuel)
    as (q & s1 & tw & p & vs & Hrun & _ & _ & _ & Hans & Hperm & _ & _ & _
          & (Hm & _ & Hui) & Hpres & Hstore1 & _).
  destruct (startQuiz_run fuel choice s (Some q) s1) as (s' & Hquiz & Hui' & Hheap & Hm' & _).
  { by exists this. }
  { done. }
  exists q, s1, s'. split; [done|]. split; [done|]. split; [by rewrite Hui', Hui|].
  split.
  - intros o Ho Hcorrect. destruct choice as [i|]; [|done]. simpl in Ho.
    assert (Hin : o ∈ QuizQuestion.options q) by (by eapply list_elem_of_lookup_2).
    rewrite Hperm in Hin. unfold make_options in Hin.
    apply elem_of_cons in Hin as [->|Hin]; [by rewrite Hans|].
    apply list_elem_of_fmap in Hin as (v & -> & _). done.
  - apply store_Some in Hstore1 as (this1 & rs & Hthis1 & Hrs & Hpt).
    apply store_Some. exists this1, rs. split; [congruence|]. by rewrite Hheap.
Qed.

Lemma startQuiz_asks_and_answers_witness :
  store shown_state = Some defaultWords ∧
  defaultWords ≠ [] ∧
  (length defaultWords ≤ 3)%nat ∧
  wordManager shown_state = Some (mkManager 4%nat (Obj 1%nat)) ∧
  currentWord (mkManager 4%nat (Obj 1%nat)) ≠ Null ∧
  ∃ q s1 s',
    generateQuizQuestion 3 shown_state = Ret (Some q) s1 ∧
    startQuiz 3 (Some 1%nat) shown_state = Ret tt s' ∧
    ui s' = (ui shown_state ++
             ShowQuickPick (quick_pick_items (QuizQuestion.options q))
               (QuizQuestion.questionText q)
             :: feedback_for "🎉 答對了！繼續加油！" (QuizQuestion.correctAnswer q)
                  (Some 1%nat ≫= (QuizQuestion.options q !!.)))%list ∧
    (∀ o, Some 1%nat ≫= (QuizQuestion.options q !!.) = Some o → isCorrect o = true →
          text o = QuizQuestion.correctAnswer q) ∧
    store s' = Some defaultWords.
Proof.
  assert (Hstore : store shown_state = Some defaultWords) by (vm_compute; reflexivity).
  assert (Hne : defaultWords ≠ []) by discriminate.
  assert (Hfuel : (length defaultWords ≤ 3)%nat) by (vm_compute; lia).
  assert (Hthis : wordManager shown_state = Some (mkManager 4%nat (Obj 1%nat)))
    by (vm_compute; reflexivity).
  assert (Hcur : currentWord (mkManager 4%nat (Obj 1%nat)) ≠ Null) by discriminate.
  split; [exact Hstore|]. split; [exact Hne|]. split; [exact Hfuel|].
  split; [exact Hthis|]. split; [exact Hcur|].
  exact (startQuiz_asks_and_answers 3 (Some 1%nat) shown_state defaultWords _
           Hstore Hne Hfuel Hthis Hcur).
Defined.

(** X10. A stale current word: when [currentWord] is set but the collection
    is empty (a reload brought no Word), [startQuiz] passes the gate, gets no
    question and shows the "cannot build a question" error, once. *)
Theorem startQuiz_stale_word fuel choice s this :
  store s = Some [] →
  wordManager s = Some this →
  currentWord this ≠ Null →
  startQuiz fuel choice s
  = Ret tt (set_ui (ui s ++ [ShowErrorMessage quiz_not_built_message])%list s).
Proof.
  intros Hstore Hthis Hcur.
  assert (Hq : generateQuizQuestion fuel s = Ret None s)
    by (apply generateQuizQuestion_none; by right).
  unfold startQuiz, try_catch. rewrite startQuiz_gate, Hthis.
  destruct (currentWord this); [done|..]; unfold bind; by rewrite Hq.
Qed.

Lemma startQuiz_stale_word_witness :
  store stale_state = Some [] ∧
  wordManager stale_state = Some (mkManager 5%nat (Obj 1%nat)) ∧
  currentWord (mkManager 5%nat (Obj 1%nat)) ≠ Null ∧
  startQuiz 3 (Some 0%nat) stale_state
  = Ret tt (set_ui (ui stale_state ++ [ShowErrorMessage quiz_not_built_message])%list
              stale_state).
Proof.
  assert (Hstore : store stale_state = Some []) by (vm_compute; reflexivity).
  assert (Hthis : wordManager stale_state = Some (mkManager 5%nat (Obj 1%nat)))
    by (vm_compute; reflexivity).
  assert (Hcur : currentWord (mkManager 5%nat (Obj 1%nat)) ≠ Null) by discriminate.
  split; [exact Hstore|]. split; [exact Hthis|]. split; [exact Hcur|].
  exact (startQuiz_stale_word 3 (Some 0%nat) stale_state _ Hstore Hthis Hcur).
Defined.

(** ** Example quiz, activation, shuffle and sampler *)

(** X11. When some Word has examples, [showExampleQuiz] shows one quick
    pick with the options and the prompt of the question it has built, then
    nothing if the user dismisses it, the praise if the picked option is
    flagged correct, and otherwise a warning that names the first meaning of
    the target Word. *)
Theorem showExampleQuiz_feedback fuel choice s ws :
  store s = Some ws →
  (length ws ≤ fuel)%nat →
  filter (λ w, has_examples w = true) ws ≠ [] →
  ∃ q s1 s' tw,
    exampleQuizQuestion fuel s = Ret (Some q) s1 ∧
    showExampleQuiz fuel choice s = Ret tt s' ∧
    word_at (heap s) (ExampleQuiz.targetWord q) = Some tw ∧
    ui s' = (ui s ++
             ShowQuickPick (quick_pick_items (ExampleQuiz.options q))
               (ExampleQuiz.questionText q)
             :: feedback_for "🎉 答對了！例句理解正確！" (first_meaning tw)
                  (choice ≫= (ExampleQuiz.options q !!.)))%list.
Proof.
  intros Hstore Hfuel Hex.
  destruct (exampleQuizQuestion_spec fuel s ws Hstore Hfuel) as [_ Hsome].
  destruct (Hsome Hex) as (q & s1 & tw & exs & Hq & Hui & Htw & _ & _ & _ & Hans & _).
  destruct (showExampleQuiz_run fuel choice s q s1 Hq) as (s' & Hrun & Hui').
  exists q, s1, s', tw. split; [done|]. split; [done|]. split; [done|].
  by rewrite Hui', Hui, Hans.
Qed.

Lemma showExampleQuiz_feedback_witness :
  store example_state = Some [example_word] ∧
  (length [example_word] ≤ 1)%nat ∧
  filter (λ w, has_examples w = true) [example_word] ≠ [] ∧
  ∃ q s1 s' tw,
    exampleQuizQuestion 1 example_state = Ret (Some q) s1 ∧
    showExampleQuiz 1 (Some 0%nat) example_state = Ret tt s' ∧
    word_at (heap example_state) (ExampleQuiz.targetWord q) = Some tw ∧
    ui s' = (ui example_state ++
             ShowQuickPick (quick_pick_items (ExampleQuiz.options q))
               (ExampleQuiz.questionText q)
             :: feedback_for "🎉 答對了！例句理解正確！" (first_meaning tw)
                  (Some 0%nat ≫= (ExampleQuiz.options q !!.)))%list.
Proof.
  assert (Hstore : store example_state = Some [example_word]) by (vm_compute; reflexivity).
  assert (Hfuel : (length [example_word] ≤ 1)%nat) by (simpl; lia).
  assert (Hex : filter (λ w, has_examples w = true) [example_word] ≠ [])
    by (vm_compute; discriminate).
  split; [exact Hstore|]. split; [exact Hfuel|]. split; [exact Hex|].
  exact (showExampleQuiz_feedback 1 (Some 0%nat) example_state [example_word]
           Hstore Hfuel Hex).
Defined.

(** X12. [getWordsWithExamples] returns a newly allocated array, never
    [this.words] itself: empty when there is no manager, and otherwise the
    references, in the order of the collection, of exactly the Words that
    have at least one example.  The collection and every existing object are
    unchanged, and no random value is drawn. *)
Theorem getWordsWithExamples_fresh_copy s :
  (wordManager s = None →
   ∃ a s', getWordsWithExamples s = Ret a s' ∧
           heap s !! a = None ∧ heap s' !! a = Some (CArray []) ∧ preserves_heap s s') ∧
  (∀ ws, store s = Some ws →
   ∃ a s' kept this,
     getWordsWithExamples s = Ret a s' ∧
     wordManager s = Some this ∧ a ≠ words this ∧
     heap s !! a = None ∧
     heap s' !! a = Some (CArray kept) ∧
     mapM (word_at (heap s')) kept = Some (filter (λ w, has_examples w = true) ws) ∧
     preserves_heap s s' ∧
     store s' = Some ws ∧
     draws s' = draws s ∧ ui s' = ui s).
Proof.
  split.
  - intros Hnone. eexists _, _. split.
    { unfold getWordsWithExamples, bind, get_state. rewrite Hnone. apply alloc_run. }
    split; [apply not_elem_of_dom, is_fresh|]. split; [simpl; by rewrite lookup_insert_eq|].
    by eapply preserves_heap_fresh.
  - intros ws Hstore. pose proof Hstore as Hs.
    apply store_Some in Hs as (this & rs & Hthis & Hrs & Hpt).
    destruct (getWordsWithExamples_spec s ws this Hthis Hstore) as (kept & Hrun & Hkept).
    set (a := fresh (dom (heap s))) in *.
    set (s' := set_heap (<[a:=CArray kept]> (heap s)) s) in *.
    assert (Hpres : preserves_heap s s') by (by eapply preserves_heap_fresh).
    exists a, s', kept, this. split; [done|]. split; [done|].
    split. { apply not_eq_sym. by eapply fresh_lookup_ne. }
    split; [apply not_elem_of_dom, is_fresh|].
    split; [simpl; by rewrite lookup_insert_eq|].
    split.
    { apply mapM_Some. eapply Forall2_impl; [exact Hkept|].
      intros r w Hr. apply word_at_Some. by apply Hpres. }
    split; [done|]. split; [by apply (preserves_heap_store s s')|]. done.
Qed.

Lemma getWordsWithExamples_fresh_copy_witness :
  store example_state = Some [example_word] ∧
  ∃ a s' kept this,
    getWordsWithExamples example_state = Ret a s' ∧
    wordManager example_state = Some this ∧ a ≠ words this ∧
    heap example_state !! a = None ∧
    heap s' !! a = Some (CArray kept) ∧
    mapM (word_at (heap s')) kept
    = Some (filter (λ w, has_examples w = true) [example_word]) ∧
    preserves_heap example_state s' ∧
    store s' = Some [example_word] ∧
    draws s' = draws example_state ∧ ui s' = ui example_state.
Proof.
  assert (Hstore : store example_state = Some [example_word]) by (vm_compute; reflexivity).
  split; [exact Hstore|].
  exact (proj2 (getWordsWithExamples_fresh_copy example_state) [example_word] Hstore).
Defined.



(** X14. The shuffle can produce every arrangement: for each permutation of
    the options there are values of [Math.random()] for which the shuffle
    returns it, after [length - 1] draws. *)
Theorem shuffle_reaches_every_permutation {A} (options target : list A) s :
  target ≡ₚ options →
  ∃ rnd s',
    shuffle options (with_random rnd s) = Ret target s' ∧
    s' = set_draws (draws s + (length options - 1)) (with_random rnd s).
Proof.
  intros Hperm. destruct (shuffle_reaches options target s Hperm) as (rnd & s' & Hrun).
  exists rnd, s'. split; [done|].
  destruct (shuffle_runs options (with_random rnd s)) as (Hrun' & _).
  rewrite Hrun in Hrun'. by injection Hrun' as _ ->.
Qed.

Lemma shuffle_reaches_every_permutation_witness :
  reverse three_options ≡ₚ three_options ∧
  ∃ rnd s',
    shuffle three_options (with_random rnd fallback_state) = Ret (reverse three_options) s' ∧
    s' = set_draws (draws fallback_state + (length three_options - 1))
           (with_random rnd fallback_state).
Proof.
  assert (Hperm : reverse three_options ≡ₚ three_options) by apply reverse_Permutation.
  split; [exact Hperm|].
  exact (shuffle_reaches_every_permutation three_options (reverse three_options)
           fallback_state Hperm).
Defined.

(** X15. With a count of zero or less, or when no Word has an id other
    than [excludeId], the sampler returns the empty list without drawing any
    random value, whatever the iteration budget (even none), and leaves the
    collection unchanged. *)
Theorem sampler_nothing_to_draw p fuel excludeId count s ws :
  store s = Some ws →
  (count ≤ 0)%Z ∨ candidates excludeId ws = [] →
  ∃ s',
    sampler p fuel excludeId count s = Ret [] s' ∧
    draws s' = draws s ∧
    store s' = Some ws.
Proof.
  intros Hstore Hcase. rewrite sampler_sample. pose proof Hstore as Hs.
  apply store_Some in Hs as (this & rs & Hthis & Hrs & Hpt).
  destruct (array_filter_spec
              (λ word, bool_decide (JapaneseWord.id word ≠ excludeId))
              (λ word, JapaneseWord.id word ≠ excludeId) s (words this) rs ws)
    as (kept & Hfilter & Hkept); [done..|].
  fold (candidates excludeId ws) in Hkept.
  set (a := fresh (dom (heap s))) in *.
  set (s1 := set_heap (<[a:=CArray kept]> (heap s)) s) in *.
  exists s1. split.
  - unfold sample, bind. rewrite (this_words_ok _ _ Hthis), Hfilter.
    apply sample_loop_exit with (ow := kept); [simpl; by rewrite lookup_insert_eq|].
    destruct Hcase as [Hcount|Hnone].
    + apply andb_false_iff. left. apply Z.ltb_ge. simpl. lia.
    + apply andb_false_iff. right. rewrite Hnone in Hkept.
      apply pointed_length in Hkept. by destruct kept.
  - split; [done|]. apply (preserves_heap_store s s1); [|done..].
    by eapply preserves_heap_fresh.
Qed.

Lemma sampler_nothing_to_draw_witness :
  store example_state = Some [example_word] ∧
  ((3 ≤ 0)%Z ∨ candidates "7" [example_word] = []) ∧
  ∃ s',
    sampler Meaning 0 "7" 3 example_state = Ret [] s' ∧
    draws s' = draws example_state ∧
    store s' = Some [example_word].
Proof.
  assert (Hstore : store example_state = Some [example_word]) by (vm_compute; reflexivity).
  assert (Hcase : (3 ≤ 0)%Z ∨ candidates "7" [example_word] = [])
    by (right; vm_compute; reflexivity).
  split; [exact Hstore|]. split; [exact Hcase|].
  exact (sampler_nothing_to_draw Meaning 0 "7" 3 example_state [example_word] Hstore Hcase).
Defined.
